(** * MonoSAT C API (src/monosat/api/Monosat.cpp): a shallow embedding

    The development models the handle-based C API of the solver as pure
    functions over explicit solver, bitvector-theory and graph-theory
    states, and proves properties of the API functions.

    Conventions.
    - A C++ [int] / [int64_t] / [Var] value is a [Z].  Where the API code
      itself computes on an [int] argument ([varToLit], the [steps - 1]
      of [shortestPathUnweighted_lt_const]) the result is brought back
      into the range of [int] by [int32], the two's-complement result of
      the supported platforms; elsewhere the values stay in range and
      arithmetic is the arithmetic of [Z].
    - An array argument [(int * p, int n)] is the list of its [n] entries;
      [n] is the length of that list.
    - A [const char *] is [option string]: [None] is [nullptr].
    - A function that may throw returns an [outcome] together with the
      state at the point of the throw or of the return.
    - The classes [Solver], [BVTheorySolver], [GraphTheorySolver] and the
      literal type of core/SolverTypes.h are not part of the two source
      files; the parts the API relies on are modelled from the
      specification, and each such definition says so. *)

From Stdlib Require Import ZArith List Bool Ascii String Lia DecimalString.
From stdpp Require Import base gmap strings list.

Local Open Scope Z_scope.

(** ** Literal algebra *)

Definition Var := Z.

(** Modelled from the spec: [var_Undef] of core/SolverTypes.h is missing;
    a variable is a dense non-negative integer, so the undefined variable
    is the negative sentinel. *)
Definition var_Undef : Var := -1.

(** Modelled from the spec: [struct Lit] of core/SolverTypes.h is missing;
    a literal wraps one integer. *)
Record Lit : Type := LitOf { lit_x : Z }.

(** Modelled from the spec: [mkLit] is missing; "a literal encodes
    (variable, sign) as 2·var + sign". *)
Definition mkLit (v : Var) (sgn : bool) : Lit :=
  LitOf (v + v + Z.b2z sgn).

(** Modelled from the spec: [sign] is missing; the sign is the low bit. *)
Definition sign (p : Lit) : bool := Z.testbit (lit_x p) 0.

(** Modelled from the spec: [var] is missing; the variable is the literal
    without its low bit. *)
Definition var (p : Lit) : Var := Z.shiftr (lit_x p) 1.

(** Modelled from the spec: [operator~] is missing; "negation flips the
    low bit". *)
Definition lit_neg (p : Lit) : Lit := LitOf (Z.lxor (lit_x p) 1).

(** Modelled from the spec: [toInt] and [toLit] are missing; they expose
    and wrap the integer of a literal. *)
Definition toInt (p : Lit) : Z := lit_x p.
Definition toLit (i : Z) : Lit := LitOf i.

Definition lit_Undef : Lit := LitOf (-2).

#[global] Instance Lit_eq_dec : EqDecision Lit.
Proof. solve_decision. Defined.

(** Three-valued truth values; the API documents their integer codes:
    "Returns 0 for true, 1 for false, 2 for unassigned". *)
Inductive lbool : Type := l_True | l_False | l_Undef.

Definition lbool_toInt (b : lbool) : Z :=
  match b with l_True => 0 | l_False => 1 | l_Undef => 2 end.

#[global] Instance lbool_eq_dec : EqDecision lbool.
Proof. solve_decision. Defined.

(** The value of an [int] computation whose exact result is [z]: the
    32-bit two's-complement number congruent to [z]. *)
Definition int32 (z : Z) : Z := (z + 2 ^ 31) mod 2 ^ 32 - 2 ^ 31.

(** [int varToLit(int variable, bool negated)]; the sum inside [mkLit] is
    a sum of [int]s. *)
Definition varToLit (variable : Z) (negated : bool) : Z :=
  int32 (toInt (mkLit variable negated)).

(** [inline int dimacs(int externalLit)] *)
Definition dimacs (externalLit : Z) : Z :=
  let l := toLit externalLit in
  if sign l then - (var l + 1) else var l + 1.

(** ** Exceptions *)

Inductive exn : Type :=
| runtime_error (what : option string)
| invalid_argument (what : string).

Inductive outcome (A : Type) : Type :=
| Return (a : A)
| Raise (e : exn).
Arguments Return {A} a.
Arguments Raise {A} e.

Definition raised {A} (o : outcome A) : bool :=
  match o with Raise _ => true | Return _ => false end.

(** ** Formatted output

    [write_out] and [api_errorf] format with the C library's [vfprintf] /
    [vsnprintf].  Only the conversions the modelled functions use are
    interpreted: [%d] (an [int]), [%ld] (the expansion of ["%" PRId64], an
    [int64_t]) and [%s].  A conversion that finds no argument, or an
    argument of another type, is undefined behaviour in C: the rendering
    is [None]. *)

Inductive va_arg : Type :=
| va_int (z : Z)
| va_int64 (z : Z)
| va_str (s : string).

Definition LF : string := String (ascii_of_nat 10) EmptyString.
Definition PRId64 : string := "ld".

Definition string_of_Z (z : Z) : string :=
  NilZero.string_of_int (Z.to_int z).

Definition opt_prepend (s : string) (o : option string) : option string :=
  match o with
  | Some t => Some (String.append s t)
  | None => None
  end.

Fixpoint vfprintf (fmt : string) (args : list va_arg) : option string :=
  match fmt with
  | EmptyString => Some EmptyString
  | String "%" (String "d" rest) =>
      match args with
      | va_int z :: args' => opt_prepend (string_of_Z z) (vfprintf rest args')
      | _ => None
      end
  | String "%" (String "l" (String "d" rest)) =>
      match args with
      | va_int64 z :: args' => opt_prepend (string_of_Z z) (vfprintf rest args')
      | _ => None
      end
  | String "%" (String "s" rest) =>
      match args with
      | va_str s :: args' => opt_prepend s (vfprintf rest args')
      | _ => None
      end
  | String c rest => opt_prepend (String c EmptyString) (vfprintf rest args)
  end.

(** The number of conversion specifications of a format. *)
Fixpoint n_conversions (fmt : string) : nat :=
  match fmt with
  | EmptyString => O
  | String "%" rest => S (n_conversions rest)
  | String _ rest => n_conversions rest
  end.

(** [api_errorf]: formats into [char buf[1000]] with [vsnprintf] (at most
    999 characters are kept), prints the buffer on stderr and throws
    [std::runtime_error(buf)]. *)
Definition api_errorf (fmt : string) (args : list va_arg) : exn :=
  runtime_error (String.substring 0 999 <$> vfprintf fmt args).

(** ** The solver state seen by the API *)

(** The part of [Monosat::SimpSolver] and of its [MonosatData] that the
    modelled API functions read and write.

    Modelled from the spec: class [Solver] / [SimpSolver] is missing.
    - [n_vars] is [S->nVars()], the number of internal variables;
    - [var_map] and [var_reverse_map] are the var-map layer's "two dense
      arrays: ext→int and int→ext" ([var_Undef] marks an unmapped slot);
    - [var_names] is the hash table of named variables;
    - [model] is [S->model], [conflict] is [S->conflict] (a set of
      literals kept in insertion order), [clauses] the posted clauses;
    - [outfile], [last_solution_optimal] and
      [has_conflict_clause_from_last_solution] are fields of
      [MonosatData]; the output file is the list of the chunks written so
      far, one per [write_out] call. *)
Record SimpSolver : Type := mkSolver {
  n_vars : Z;
  var_map : list Var;
  var_reverse_map : list Var;
  var_names : gmap string Var;
  model : list lbool;
  conflict : list Lit;
  clauses : list (list Lit);
  outfile : option (list (option string));
  last_solution_optimal : bool;
  has_conflict_clause_from_last_solution : bool
}.

Definition set_n_vars (S : SimpSolver) (n : Z) : SimpSolver :=
  mkSolver n (var_map S) (var_reverse_map S) (var_names S) (model S)
    (conflict S) (clauses S) (outfile S) (last_solution_optimal S)
    (has_conflict_clause_from_last_solution S).

Definition set_maps (S : SimpSolver) (m r : list Var) : SimpSolver :=
  mkSolver (n_vars S) m r (var_names S) (model S)
    (conflict S) (clauses S) (outfile S) (last_solution_optimal S)
    (has_conflict_clause_from_last_solution S).

Definition set_var_names (S : SimpSolver) (n : gmap string Var) : SimpSolver :=
  mkSolver (n_vars S) (var_map S) (var_reverse_map S) n (model S)
    (conflict S) (clauses S) (outfile S) (last_solution_optimal S)
    (has_conflict_clause_from_last_solution S).

Definition set_conflict (S : SimpSolver) (c : list Lit) : SimpSolver :=
  mkSolver (n_vars S) (var_map S) (var_reverse_map S) (var_names S) (model S)
    c (clauses S) (outfile S) (last_solution_optimal S)
    (has_conflict_clause_from_last_solution S).

Definition set_clauses (S : SimpSolver) (c : list (list Lit)) : SimpSolver :=
  mkSolver (n_vars S) (var_map S) (var_reverse_map S) (var_names S) (model S)
    (conflict S) c (outfile S) (last_solution_optimal S)
    (has_conflict_clause_from_last_solution S).

Definition set_outfile (S : SimpSolver) (o : option (list (option string)))
  : SimpSolver :=
  mkSolver (n_vars S) (var_map S) (var_reverse_map S) (var_names S) (model S)
    (conflict S) (clauses S) o (last_solution_optimal S)
    (has_conflict_clause_from_last_solution S).

Definition set_last_solution_optimal (S : SimpSolver) (b : bool) : SimpSolver :=
  mkSolver (n_vars S) (var_map S) (var_reverse_map S) (var_names S) (model S)
    (conflict S) (clauses S) (outfile S) b
    (has_conflict_clause_from_last_solution S).

Definition set_has_conflict_clause (S : SimpSolver) (b : bool) : SimpSolver :=
  mkSolver (n_vars S) (var_map S) (var_reverse_map S) (var_names S) (model S)
    (conflict S) (clauses S) (outfile S) (last_solution_optimal S) b.

(** A solver right after construction, without an output file. *)
Definition emptySolver : SimpSolver :=
  mkSolver 0 [] [] ∅ [] [] [] None true false.

(** [inline void write_out(Monosat::SimpSolver * S, const char *fmt, ...)]:
    nothing happens without an output file; otherwise the formatted text
    is appended to it.  (A failing write of the C library, on which the
    source throws, is outside the model: the file is a list.) *)
Definition write_out (S : SimpSolver) (fmt : string) (args : list va_arg)
  : SimpSolver :=
  match outfile S with
  | None => S
  | Some out => set_outfile S (Some (out ++ [vfprintf fmt args]))
  end.

(** ** The var-map layer *)

(** Reading a dense array of variables at an [int] index; outside the
    array the answer is [var_Undef]. *)
Definition lookup_var (a : list Var) (i : Var) : Var :=
  if i <? 0 then var_Undef else default var_Undef (a !! Z.to_nat i).

(** Modelled from the spec: [Solver::mapVar] is missing; it reads the
    ext→int array. *)
Definition mapVar (S : SimpSolver) (v : Var) : Var :=
  lookup_var (var_map S) v.

(** Modelled from the spec: [Solver::unmap(Var)] is missing; it reads the
    int→ext array. *)
Definition unmapVar (S : SimpSolver) (v : Var) : Var :=
  lookup_var (var_reverse_map S) v.

(** Modelled from the spec: [Solver::mapLit] is missing; the layer renames
    variables, a literal keeps its sign. *)
Definition mapLit (S : SimpSolver) (l : Lit) : Lit :=
  mkLit (mapVar S (var l)) (sign l).

(** Modelled from the spec: [Solver::unmap(Lit)] is missing; the layer
    renames variables, a literal keeps its sign. *)
Definition unmap (S : SimpSolver) (l : Lit) : Lit :=
  mkLit (unmapVar S (var l)) (sign l).

(** [Lit internalLit(Monosat::SimpSolver * S, int l)] *)
Definition internalLit (S : SimpSolver) (l : Z) : Lit :=
  mapLit S (toLit l).

(** [int externalLit(Monosat::SimpSolver * S, Lit l)] *)
Definition externalLit (S : SimpSolver) (l : Lit) : Z :=
  toInt (unmap S l).

(** [Var internalVar(Monosat::SimpSolver * S, int v)] *)
Definition internalVar (S : SimpSolver) (v : Z) : Var := mapVar S v.

(** [Var externalVar(Monosat::SimpSolver * S, Var v)] *)
Definition externalVar (S : SimpSolver) (v : Var) : Var := unmapVar S v.

(** [inline int dimacs(Monosat::SimpSolver * S, Lit internalLit)] *)
Definition dimacs_lit (S : SimpSolver) (internalLit : Lit) : Z :=
  let l := unmap S internalLit in
  if sign l then - (var l + 1) else var l + 1.

(** An external variable is allocated when the ext→int array maps it. *)
Definition allocatedVar (S : SimpSolver) (v : Var) : bool :=
  (0 <=? v) && negb (mapVar S v =? var_Undef).

(** An external literal is allocated when its variable is. *)
Definition allocatedLit (S : SimpSolver) (e : Z) : bool :=
  allocatedVar S (var (toLit e)).

(** The invariant of the var-map layer: "for every external variable
    handed to a client, there is exactly one internal variable; the map is
    a bijection".  The int→ext array has one slot per internal variable,
    and the two arrays are inverse to each other on their mapped slots. *)
Record varmap_ok (S : SimpSolver) : Prop := {
  vm_n_vars : Z.of_nat (length (var_reverse_map S)) = n_vars S;
  vm_ext_int : forall e, 0 <= e -> mapVar S e <> var_Undef ->
                         0 <= mapVar S e /\ unmapVar S (mapVar S e) = e;
  vm_int_ext : forall i, 0 <= i -> unmapVar S i <> var_Undef ->
                         0 <= unmapVar S i /\ mapVar S (unmapVar S i) = i
}.

(** Modelled from the spec: [Solver::newVar] is missing; it allocates the
    next internal variable, and the var-map layer hands the next external
    variable out for it. *)
Definition Solver_newVar (S : SimpSolver) : Var * SimpSolver :=
  let i := n_vars S in
  let e := Z.of_nat (length (var_map S)) in
  (i, set_n_vars (set_maps S (var_map S ++ [i]) (var_reverse_map S ++ [e]))
        (i + 1)).

(** [int newVar(Monosat::SimpSolver * S)] *)
Definition newVar (S : SimpSolver) : Z * SimpSolver :=
  let '(v, S1) := Solver_newVar S in
  (externalVar S1 v, S1).

(** Modelled from the spec: [Solver::addClause] is missing; the clause is
    recorded among the posted clauses. *)
Definition addClause (S : SimpSolver) (c : list Lit) : SimpSolver :=
  set_clauses S (clauses S ++ [c]).

(** ** Named variables *)

(** The value of a [char] (a signed byte on the supported platforms). *)
Definition char_val (c : ascii) : Z :=
  let n := Z.of_N (N_of_ascii c) in
  if n <? 128 then n else n - 256.

(** The C library's character classes in the "C" locale. *)
Definition isascii (c : Z) : bool := Z.land c (Z.lnot 127) =? 0.
Definition isprint (c : Z) : bool := (32 <=? c) && (c <=? 126).
Definition isspace (c : Z) : bool := (c =? 32) || ((9 <=? c) && (c <=? 13)).

(** The condition of the loop of [newNamedVar]:
    [!isascii(c) || !isprint(c) || isspace(c)]. *)
Definition illegal_char (c : ascii) : bool :=
  negb (isascii (char_val c)) || negb (isprint (char_val c))
  || isspace (char_val c).

Definition list_of_string (s : string) : list ascii := list_ascii_of_string s.

(** Printable, non-whitespace ASCII: the characters from '!' (33) to
    '~' (126). *)
Definition legal_name_char (c : ascii) : bool :=
  (33 <=? Z.of_N (N_of_ascii c)) && (Z.of_N (N_of_ascii c) <=? 126).

(** [strlen] and [std::string] built from a [const char] pointer: a C string ends at its first
    NUL character. *)
Fixpoint c_str (buf : string) : string :=
  match buf with
  | EmptyString => EmptyString
  | String c rest =>
      if Ascii.eqb c zero then EmptyString else String c (c_str rest)
  end.

Definition strlen (buf : string) : Z := Z.of_nat (String.length (c_str buf)).

(** Modelled from the spec: [Solver::hasVariable(name)] is missing; named
    variables live in a hash table. *)
Definition hasVariable (S : SimpSolver) (name : string) : bool :=
  bool_decide (is_Some (var_names S !! name)).

(** Modelled from the spec: [Solver::getVariable(name)] is missing; it
    reads the hash table of named variables. *)
Definition Solver_getVariable (S : SimpSolver) (name : string) : Var :=
  default var_Undef (var_names S !! name).

(** Modelled from the spec: [Solver::setVariableName(Var, name)] is
    missing; a non-empty name is bound to the internal variable in the
    hash table. *)
Definition Solver_setVariableName (S : SimpSolver) (v : Var) (name : string)
  : SimpSolver :=
  if String.eqb name EmptyString then S
  else set_var_names S (<[name := v]> (var_names S)).

(** [void setVariableName(Monosat::SimpSolver * S, int variable, const char * varname)] *)
Definition setVariableName (S : SimpSolver) (variable : Z)
  (varname : option string) : SimpSolver :=
  match varname with
  | None => Solver_setVariableName S (internalVar S variable) EmptyString
  | Some buf =>
      let S1 := Solver_setVariableName S (internalVar S variable) (c_str buf) in
      write_out S1 ("symbol %d %s" ++ LF)
        [va_int (variable + 1); va_str (c_str buf)]
  end.

(** [Var getVariable(Monosat::SimpSolver * S, const char * varname)] *)
Definition getVariable (S : SimpSolver) (varname : string) : Var :=
  externalVar S (Solver_getVariable S (c_str varname)).

(** [int newNamedVar(Monosat::SimpSolver * S, const char * varname)] *)
Definition newNamedVar (S : SimpSolver) (varname : option string)
  : outcome Z * SimpSolver :=
  match varname with
  | Some buf =>
      if 0 <? strlen buf then
        let name := c_str buf in
        if hasVariable S name then
          (Raise (invalid_argument "All variable names must be unique."), S)
        else if existsb illegal_char (list_of_string name) then
          (Raise (invalid_argument
             ("Variable names must consist only of printable, non-whitespace ASCII. Invalid character in variable name: "
              ++ name)), S)
        else
          let '(v, S1) := newVar S in
          let S2 := setVariableName S1 v varname in
          (Return v, S2)
      else
        let '(v, S1) := newVar S in (Return v, S1)
  | None =>
      let '(v, S1) := newVar S in (Return v, S1)
  end.

(** ** Model queries *)

(** [S->model[i]] for an index inside the vector. *)
Definition model_at (S : SimpSolver) (i : Var) : lbool :=
  default l_Undef (model S !! Z.to_nat i).

(** [int getModel_Literal(Monosat::SimpSolver * S, int lit)] *)
Definition getModel_Literal (S : SimpSolver) (lit : Z) : outcome Z :=
  let l := internalLit S lit in
  if (var l <? 0) || (n_vars S <=? var l) then
    Raise (api_errorf "Variable %d is undefined" [va_int (dimacs_lit S l)])
  else if Z.of_nat (length (model S)) <=? var l then
    Return (lbool_toInt l_Undef)
  else
    let val := model_at S (var l) in
    let val :=
      if sign l then
        match val with
        | l_True => l_False
        | l_False => l_True
        | l_Undef => val
        end
      else val in
    Return (lbool_toInt val).

(** The flip of a truth value: true and false exchanged, unassigned
    kept. *)
Definition lbool_flip (b : lbool) : lbool :=
  match b with
  | l_True => l_False
  | l_False => l_True
  | l_Undef => l_Undef
  end.

(** ** Algorithm selection *)

Inductive MinCutAlg : Type :=
| ALG_EDMONSKARP | ALG_EDKARP_ADJ | ALG_EDKARP_DYN
| ALG_DINITZ | ALG_DINITZ_LINKCUT | ALG_KOHLI_TORR.

(** The C library's [tolower] in the "C" locale, on the code of an
    [unsigned char]. *)
Definition tolower (c : ascii) : Z :=
  let n := Z.of_N (N_of_ascii c) in
  if (65 <=? n) && (n <=? 90) then n + 32 else n.

(** The C library's [strcasecmp]: the difference of the first two
    characters that differ after lowering, 0 when both strings end (at
    the end of the buffer or at a NUL character) before that. *)
Fixpoint strcasecmp (s1 s2 : string) : Z :=
  match s1, s2 with
  | EmptyString, EmptyString => 0
  | EmptyString, String c2 _ => 0 - tolower c2
  | String c1 _, EmptyString => tolower c1
  | String c1 r1, String c2 r2 =>
      if tolower c1 =? tolower c2 then
        if tolower c1 =? 0 then 0 else strcasecmp r1 r2
      else tolower c1 - tolower c2
  end.

(** The first block of [void _selectAlgorithms()]: the choice of
    [mincutalg] from [opt_maxflow_alg]. *)
Definition select_mincutalg (opt_maxflow_alg : string) : outcome MinCutAlg :=
  if strcasecmp opt_maxflow_alg "edmondskarp-adj" =? 0 then
    Return ALG_EDKARP_ADJ
  else if strcasecmp opt_maxflow_alg "edmondskarp" =? 0 then
    Return ALG_EDMONSKARP
  else if strcasecmp opt_maxflow_alg "edmondskarp-dynamic" =? 0 then
    Return ALG_EDKARP_DYN
  else if strcasecmp opt_maxflow_alg "dinics" =? 0 then
    Return ALG_DINITZ
  else if strcasecmp opt_maxflow_alg "dinics-linkcut" =? 0 then
    Return ALG_DINITZ_LINKCUT
  else if strcasecmp opt_maxflow_alg "dinitz" =? 0 then
    Return ALG_DINITZ
  else if strcasecmp opt_maxflow_alg "dinitz-linkcut" =? 0 then
    Return ALG_DINITZ_LINKCUT
  else if strcasecmp opt_maxflow_alg "dinits" =? 0 then
    Return ALG_DINITZ
  else if strcasecmp opt_maxflow_alg "dinits-linkcut" =? 0 then
    Return ALG_DINITZ_LINKCUT
  else if strcasecmp opt_maxflow_alg "kohli-torr" =? 0 then
    Return ALG_KOHLI_TORR
  else
    Raise (api_errorf
             ("Error: unknown max-flow/min-cut algorithm %s, aborting" ++ LF)
             [va_str (c_str opt_maxflow_alg)]).

(** The names the specification lists for [opt_maxflow_alg]. *)
Definition spec_maxflow_names : list string :=
  ["edmondskarp"; "edmondskarp-adj"; "edmondskarp-dynamic";
   "dinitz"; "dinitz-linkcut"; "kohli-torr"]%string.

(** The names the switchboard of [_selectAlgorithms] compares with. *)
Definition maxflow_names : list string :=
  ["edmondskarp-adj"; "edmondskarp"; "edmondskarp-dynamic";
   "dinics"; "dinics-linkcut"; "dinitz"; "dinitz-linkcut";
   "dinits"; "dinits-linkcut"; "kohli-torr"]%string.

(** Two strings are equal up to the case of their ASCII letters. *)
Definition eq_ignore_case (s t : string) : Prop :=
  map tolower (list_of_string s) = map tolower (list_of_string t).

(** ** The bitvector theory *)

Module Comparison.
Inductive t : Type := lt | leq | gt | geq.
End Comparison.

(** Modelled from the spec: class [BVTheorySolver] is missing.  The model
    keeps what the API functions below hand to it:
    - [bv_vars]: the solver variable of each theory variable (the
      cross-theory literal mapping read by [toSolver]);
    - [bv_remap]: the dense array behind [mapBV];
    - [bv_bits]: the explicit bit literals of each bitvector (empty for
      an anonymous bitvector);
    - [bv_comparisons]: the posted comparison literals [(op, bv, bv2)];
    - [bv_popcounts]: the posted popcount operator nodes. *)
Record BVTheorySolver : Type := mkBV {
  bv_vars : list Var;
  bv_remap : list Z;
  bv_bits : list (list Lit);
  bv_comparisons : list (Comparison.t * Z * Z * Lit);
  bv_popcounts : list (Z * list Var)
}.

(** Modelled from the spec: [BVTheorySolver::mapBV] is missing; it reads
    the dense array of bitvector ids. *)
Definition mapBV (bv : BVTheorySolver) (bvID : Z) : Z :=
  lookup_var (bv_remap bv) bvID.

(** [Var internalBV(Monosat::BVTheorySolver<int64_t> * bv, int bvID)] *)
Definition internalBV (bv : BVTheorySolver) (bvID : Z) : Z := mapBV bv bvID.

(** Modelled from the spec: [Theory::toSolver] is missing; a theory
    literal is renamed to the solver variable of its theory variable and
    keeps its sign. *)
Definition toSolver (bv : BVTheorySolver) (l : Lit) : Lit :=
  mkLit (lookup_var (bv_vars bv) (var l)) (sign l).

(** Modelled from the spec: [BVTheorySolver::getBits] is missing; it
    returns the bit literals of a bitvector. *)
Definition getBits (bv : BVTheorySolver) (bvID : Z) : list Lit :=
  if bvID <? 0 then [] else default [] (bv_bits bv !! Z.to_nat bvID).

(** Modelled from the spec: [BVTheorySolver::newComparisonBV] is missing;
    a comparison literal [(op, bv, bv2)] is posted on a fresh theory
    variable backed by a fresh solver variable. *)
Definition newComparisonBV (S : SimpSolver) (bv : BVTheorySolver)
  (op : Comparison.t) (bvID compareID : Z)
  : Lit * SimpSolver * BVTheorySolver :=
  let '(v, S1) := Solver_newVar S in
  let t := mkLit (Z.of_nat (length (bv_vars bv))) false in
  (t, S1,
   mkBV (bv_vars bv ++ [v]) (bv_remap bv) (bv_bits bv)
        (bv_comparisons bv ++ [(op, bvID, compareID, t)])
        (bv_popcounts bv)).

(** Modelled from the spec: [BVTheorySolver::newPopCountBV] is missing;
    it adds a popcount operator node over the given variables. *)
Definition newPopCountBV (bv : BVTheorySolver) (resultID : Z)
  (args : list Var) : BVTheorySolver :=
  mkBV (bv_vars bv) (bv_remap bv) (bv_bits bv) (bv_comparisons bv)
       (bv_popcounts bv ++ [(resultID, args)]).

(** [int newBVComparison_bv_gt(S, bv, bvID, compareID)] *)
Definition newBVComparison_bv_gt (S : SimpSolver) (bv : BVTheorySolver)
  (bvID compareID : Z) : Z * SimpSolver * BVTheorySolver :=
  let '(t, S1, bv1) :=
    newComparisonBV S bv Comparison.gt (internalBV bv bvID) compareID in
  let l := toSolver bv1 t in
  let S2 := write_out S1 ("bv > %d %d %d" ++ LF)
              [va_int (dimacs_lit S1 l); va_int bvID; va_int compareID] in
  (externalLit S2 l, S2, bv1).

(** [int newBVComparison_bv_geq(S, bv, bvID, compareID)] *)
Definition newBVComparison_bv_geq (S : SimpSolver) (bv : BVTheorySolver)
  (bvID compareID : Z) : Z * SimpSolver * BVTheorySolver :=
  let '(t, S1, bv1) :=
    newComparisonBV S bv Comparison.geq (internalBV bv bvID) compareID in
  let l := toSolver bv1 t in
  let S2 := write_out S1 ("bv >= %d %d %d" ++ LF)
              [va_int (dimacs_lit S1 l); va_int bvID; va_int compareID] in
  (externalLit S2 l, S2, bv1).

(** The body of the loop over the bits in [newBVComparison_bv_eq]:
    "either each bit is equal, or c is false". *)
Definition add_bit_equality (bv : BVTheorySolver) (c : Lit)
  (S : SimpSolver) (bits : Lit * Lit) : SimpSolver :=
  let l1 := toSolver bv (fst bits) in
  let l2 := toSolver bv (snd bits) in
  let S1 := addClause S [l1; lit_neg l2; lit_neg c] in
  addClause S1 [lit_neg l1; l2; lit_neg c].

(** [int newBVComparison_bv_eq(S, bv, bvID, compareID)].
    [S->disableElimination(var(c))] only freezes the variable for the
    simplifier, which the model does not contain. *)
Definition newBVComparison_bv_eq (S : SimpSolver) (bv : BVTheorySolver)
  (bvID compareID : Z) : Z * SimpSolver * BVTheorySolver :=
  let '(ea, S1, bv1) := newBVComparison_bv_geq S bv bvID compareID in
  let a := internalLit S1 ea in
  let '(eb, S2, bv2) := newBVComparison_bv_gt S1 bv1 bvID compareID in
  let b := internalLit S2 eb in
  let '(vc, S3) := Solver_newVar S2 in
  let c := mkLit vc false in
  let S4 := addClause S3 [a; lit_neg c] in
  let S5 := addClause S4 [lit_neg b; lit_neg c] in
  let S6 := addClause S5 [c; lit_neg a; b] in
  let bits1 := getBits bv2 (internalBV bv2 bvID) in
  let bits2 := getBits bv2 (internalBV bv2 compareID) in
  let S7 :=
    if (length bits1 =? length bits2)%nat then
      fold_left (add_bit_equality bv2 c) (combine bits1 bits2) S6
    else S6 in
  (externalLit S7 c, S7, bv2).

(** The first loop of [bv_popcount]: every argument must be a positive
    literal; the variables are collected in [m_args]. *)
Fixpoint popcount_vars (S : SimpSolver) (args : list Z) (m_args : list Var)
  : outcome (list Var) :=
  match args with
  | [] => Return m_args
  | a :: rest =>
      let l := internalLit S a in
      if sign l then
        Raise (api_errorf "Popcount arguments must all be positive literals" [])
      else popcount_vars S rest (m_args ++ [var l])
  end.

(** [void bv_popcount(S, bv, int * args, int n_args, int resultID)] *)
Definition bv_popcount (S : SimpSolver) (bv : BVTheorySolver)
  (args : list Z) (resultID : Z) : outcome unit * SimpSolver * BVTheorySolver :=
  match popcount_vars S args [] with
  | Raise e => (Raise e, S, bv)
  | Return m_args =>
      let S1 := write_out S "bv popcount %d %d"
                  [va_int resultID; va_int (Z.of_nat (length args))] in
      let S2 := fold_left
                  (fun S' v =>
                     write_out S' " %d" [va_int (dimacs_lit S' (mkLit v false))])
                  m_args S1 in
      let S3 := write_out S2 LF [] in
      (Return tt, S3, newPopCountBV bv (internalBV bv resultID) m_args)
  end.



(** ** The graph theory *)

(** Modelled from the spec: class [GraphTheorySolver] is missing.  A
    detector is "re-used if an equivalent predicate is posted again
    (hash-consed by (kind, args))"; for reachability the key is
    "(from, to, steps) including the sentinel -1 for any length".
    [reach_lits] is that table; [mst_lits] are the posted spanning-tree
    predicates [(var, weight, inclusive)]. *)
Record GraphTheorySolver : Type := mkGraph {
  graph_id : Z;
  reach_lits : gmap (Z * Z * Z) Lit;
  mst_lits : list (Var * Z * bool)
}.

Definition getGraphID (G : GraphTheorySolver) : Z := graph_id G.

(** Modelled from the spec: [GraphTheorySolver::hasReach] is missing; it
    tells whether the predicate is in the table. *)
Definition hasReach (G : GraphTheorySolver) (from to steps : Z) : bool :=
  bool_decide (is_Some (reach_lits G !! (from, to, steps))).

(** Modelled from the spec: [GraphTheorySolver::reaches] is missing; it
    returns the literal of the predicate, posting it first on a fresh
    variable (or on [outerVar] when one is given) when it is new. *)
Definition Graph_reaches (S : SimpSolver) (G : GraphTheorySolver)
  (from to : Z) (outerVar : Var) (steps : Z)
  : Lit * SimpSolver * GraphTheorySolver :=
  match reach_lits G !! (from, to, steps) with
  | Some l => (l, S, G)
  | None =>
      let '(v, S1) :=
        if outerVar =? var_Undef then Solver_newVar S else (outerVar, S) in
      let l := mkLit v false in
      (l, S1,
       mkGraph (graph_id G) (<[(from, to, steps) := l]> (reach_lits G))
               (mst_lits G))
  end.

(** Modelled from the spec: [GraphTheorySolver::minimumSpanningTree] is
    missing; it posts the spanning-tree predicate on the variable. *)
Definition minimumSpanningTree (G : GraphTheorySolver) (v : Var)
  (weight : Z) (inclusive : bool) : GraphTheorySolver :=
  mkGraph (graph_id G) (reach_lits G) (mst_lits G ++ [(v, weight, inclusive)]).

(** [int reaches(S, G, int from, int to)] *)
Definition reaches (S : SimpSolver) (G : GraphTheorySolver) (from to : Z)
  : Z * SimpSolver * GraphTheorySolver :=
  if hasReach G from to (-1) then
    let '(l, S1, G1) := Graph_reaches S G from to var_Undef (-1) in
    (externalLit S1 l, S1, G1)
  else
    let '(l, S1, G1) := Graph_reaches S G from to var_Undef (-1) in
    let S2 := write_out S1 ("reach %d %d %d %d" ++ LF)
                [va_int (getGraphID G1); va_int from; va_int to;
                 va_int (dimacs_lit S1 l)] in
    (externalLit S2 l, S2, G1).

(** [int shortestPathUnweighted_lt_const(S, G, int from, int to, int steps)];
    [steps - 1] is a subtraction of [int]s. *)
Definition shortestPathUnweighted_lt_const (S : SimpSolver)
  (G : GraphTheorySolver) (from to steps : Z)
  : Z * SimpSolver * GraphTheorySolver :=
  if hasReach G from to (int32 (steps - 1)) then
    let '(l, S1, G1) :=
      Graph_reaches S G from to var_Undef (int32 (steps - 1)) in
    (externalLit S1 l, S1, G1)
  else
    let '(l, S1, G1) :=
      Graph_reaches S G from to var_Undef (int32 (steps - 1)) in
    let S2 := write_out S1 ("distance_lt %d %d %d %d %d" ++ LF)
                [va_int (getGraphID G1); va_int from; va_int to;
                 va_int (dimacs_lit S1 l); va_int steps] in
    (externalLit S2 l, S2, G1).

(** The format of the trace line of [minimumSpanningTree_leq], as the
    source has it. *)
Definition mst_weight_leq_fmt : string :=
  "mst_weight_leq %d %d %d %d %d %" ++ PRId64 ++ LF.

(** The format of the line of the GNF grammar,
    [mst_weight_leq <gid> <lit> <k>]. *)
Definition gnf_mst_weight_leq_fmt : string :=
  "mst_weight_leq %d %d %" ++ PRId64 ++ LF.

(** [int minimumSpanningTree_leq(S, G, int64_t weight)] *)
Definition minimumSpanningTree_leq (S : SimpSolver) (G : GraphTheorySolver)
  (weight : Z) : Z * SimpSolver * GraphTheorySolver :=
  let '(v, S1) := newVar S in
  let l := mkLit v false in
  let S2 := write_out S1 mst_weight_leq_fmt
              [va_int (getGraphID G); va_int (dimacs_lit S1 l);
               va_int64 weight] in
  let G1 := minimumSpanningTree G v weight true in
  (externalLit S2 l, S2, G1).

(** A decision procedure for [varmap_ok]: every mapped slot of one
    array is sent back to its index by the other array. *)
Definition slot_ok (fwd bwd : list Var) (k : nat) : bool :=
  let x := lookup_var fwd (Z.of_nat k) in
  (x =? var_Undef) || ((0 <=? x) && (lookup_var bwd x =? Z.of_nat k)).

Definition varmap_okb (S : SimpSolver) : bool :=
  (Z.of_nat (length (var_reverse_map S)) =? n_vars S)
  && forallb (slot_ok (var_map S) (var_reverse_map S))
       (seq 0 (length (var_map S)))
  && forallb (slot_ok (var_reverse_map S) (var_map S))
       (seq 0 (length (var_reverse_map S))).

(** A solver with two variables whose external and internal numbers are
    exchanged, a model for both and an output file. *)
Definition swapSolver : SimpSolver :=
  mkSolver 2 [1; 0] [1; 0] ∅ [l_True; l_False] [] [] (Some []) true false.

(** A graph without predicates. *)
Definition emptyGraph (gid : Z) : GraphTheorySolver := mkGraph gid ∅ [].

(** A bitvector theory with two bitvectors of two explicit bits each; the
    theory variables 0..3 are backed by the solver variables 0..3. *)
Definition exampleBV : BVTheorySolver :=
  mkBV [0; 1; 2; 3] [0; 1]
       [[mkLit 0 false; mkLit 1 false]; [mkLit 2 false; mkLit 3 false]]
       [] [].

(** A solver with four variables mapped to themselves and an output
    file. *)
Definition fourVarSolver : SimpSolver :=
  mkSolver 4 [0; 1; 2; 3] [0; 1; 2; 3] ∅ [] [] [] (Some []) true false.

(** The solver [swapSolver] after a variable named [x] was created. *)
Definition namedSolver : SimpSolver :=
  snd (newNamedVar swapSolver (Some "x"%string)).

(** The two clauses per bit position that [newBVComparison_bv_eq] adds
    when both bitvectors have the same number of explicit bits. *)
Definition bit_equality_clauses (bv : BVTheorySolver) (c : Lit)
  (bits1 bits2 : list Lit) : list (list Lit) :=
  flat_map (fun p =>
              [[toSolver bv (fst p); lit_neg (toSolver bv (snd p)); lit_neg c];
               [lit_neg (toSolver bv (fst p)); toSolver bv (snd p); lit_neg c]])
           (combine bits1 bits2).






(** ** Unsat-core minimisation *)

(** [LSet::insert]: a literal enters the set once. *)
Definition LSet_insert (s : list Lit) (l : Lit) : list Lit :=
  if bool_decide (l ∈ s) then s else s ++ [l].

(** The loop storing the minimised core back into the caller's array:
    [unsat_assumptions[i] = externalLit(S, assumptions[i])].  A store
    outside the array is undefined in C; the list update leaves the array
    alone there. *)
Fixpoint store_core (S : SimpSolver) (i : nat) (assumptions : list Lit)
  (unsat_assumptions : list Z) : list Z :=
  match assumptions with
  | [] => unsat_assumptions
  | l :: rest =>
      store_core S (Datatypes.S i) rest
        (<[i := externalLit S l]> unsat_assumptions)
  end.

(** The first loop of [minimizeUnsatCore]: each assumption is renamed,
    traced and pushed. *)
Definition push_assumption (st : SimpSolver * list Lit) (e : Z)
  : SimpSolver * list Lit :=
  let l := internalLit (fst st) e in
  (write_out (fst st) "%d " [va_int (dimacs_lit (fst st) l)], snd st ++ [l]).

Section MinimizeCore.

(** The verdict of the CDCL engine on the posted formula under a list
    of assumptions; the engine is outside the API file. *)
Variable solve_under : list Lit -> lbool.

(** Dropping, one after the other, every assumption without which the
    rest is still unsatisfiable. *)
Fixpoint shrink_core (kept todo : list Lit) : list Lit :=
  match todo with
  | [] => kept
  | l :: rest =>
      match solve_under (kept ++ rest) with
      | l_False => shrink_core kept rest
      | _ => shrink_core (kept ++ [l]) rest
      end
  end.

(** Modelled from the spec: [minimizeCore] of core/Optimize.h is
    missing.  The assumption core is "the minimal subset of input
    assumptions sufficient to derive UNSAT"; "re-solving with only that
    subset also returns UNSAT".  The assumptions are shrunk in place
    when the formula is unsatisfiable under them and left alone
    otherwise; the verdict is returned. *)
Definition minimizeCore (assumptions : list Lit) : lbool * list Lit :=
  match solve_under assumptions with
  | l_False => (l_False, shrink_core [] assumptions)
  | r => (r, assumptions)
  end.

(** [int minimizeUnsatCore(Monosat::SimpSolver * S, int * unsat_assumptions, int n_lits)];
    the result is the returned count, the caller's array after the call
    and the solver after the call.  The resource limits, the return to
    decision level 0, the preprocessing and the pseudo-Boolean
    conversion act on parts of the solver that the model does not
    contain. *)
Definition minimizeUnsatCore (S : SimpSolver) (unsat_assumptions : list Z)
  : Z * list Z * SimpSolver :=
  let S1 := set_last_solution_optimal S true in
  let S2 := set_has_conflict_clause S1 false in
  let S3 := write_out S2 "minimize_core " [] in
  let '(S4, assumptions) :=
    fold_left push_assumption unsat_assumptions (S3, []) in
  let S5 := write_out S4 LF [] in
  let '(r, assumptions) := minimizeCore assumptions in
  let unsat_assumptions := store_core S5 0 assumptions unsat_assumptions in
  let S6 := set_last_solution_optimal S5
              (negb (bool_decide (r = l_Undef))) in
  let S7 :=
    if negb (bool_decide (r = l_True)) then
      let S' := set_has_conflict_clause S6 true in
      set_conflict S' (fold_left LSet_insert (map lit_neg assumptions) [])
    else set_has_conflict_clause S6 false in
  (Z.of_nat (length assumptions), unsat_assumptions, S7).

End MinimizeCore.

(** The verdicts of the scenario "three assumptions x, y, z where only
    x and z together are unsatisfiable", with x, y, z the positive
    literals of the internal variables 0, 1, 2. *)
Definition scenario_oracle (assumptions : list Lit) : lbool :=
  if bool_decide (mkLit 0 false ∈ assumptions)
     && bool_decide (mkLit 2 false ∈ assumptions)
  then l_False else l_True.

(** ** Further API functions *)

(** The text of the output file: the chunks written so far, in order; it
    is undefined as soon as one chunk is. *)
Fixpoint file_bytes (chunks : list (option string)) : option string :=
  match chunks with
  | [] => Some EmptyString
  | Some s :: rest => opt_prepend s (file_bytes rest)
  | None :: _ => None
  end.

Definition set_model (S : SimpSolver) (m : list lbool) : SimpSolver :=
  mkSolver (n_vars S) (var_map S) (var_reverse_map S) (var_names S) m
    (conflict S) (clauses S) (outfile S) (last_solution_optimal S)
    (has_conflict_clause_from_last_solution S).

(** [int getConflictClause(Monosat::SimpSolver * S, int * store_clause, int max_store_size)];
    the result is the returned value and the caller's array after the
    call.  The loop [for (i = 0; i < size && i < max_store_size; i++)]
    stores the external literals of the first [max_store_size] conflict
    literals, as the loop of [minimizeUnsatCore] does for the core. *)
Definition getConflictClause (S : SimpSolver) (store_clause : list Z)
  (max_store_size : Z) : Z * list Z :=
  if has_conflict_clause_from_last_solution S then
    (Z.of_nat (length (conflict S)),
     store_core S 0 (take (Z.to_nat max_store_size) (conflict S)) store_clause)
  else (-1, store_clause).

(** [bool lastSolutionWasOptimal(Monosat::SimpSolver * S)] *)
Definition lastSolutionWasOptimal (S : SimpSolver) : bool :=
  last_solution_optimal S.

(** The second loop of [_solve]: an assumption whose internal variable is
    not below [S->nVars()] is refused; the others are pushed. *)
Fixpoint check_assumptions (S : SimpSolver) (assumptions : list Z)
  (assume : list Lit) : outcome (list Lit) :=
  match assumptions with
  | [] => Return assume
  | a :: rest =>
      let l := internalLit S a in
      if n_vars S <=? var l then
        Raise (api_errorf "Assumption literal %d is not allocated"
                 [va_int (dimacs_lit S l)])
      else check_assumptions S rest (assume ++ [l])
  end.

(** The first loop of [_solve]: the trace of one assumption. *)
Definition trace_assumption (S : SimpSolver) (a : Z) : SimpSolver :=
  write_out S " %d" [va_int (dimacs_lit S (internalLit S a))].

Section Solving.

(** [optimize_and_solve] of core/Optimize.h is outside the API file: for
    the solver and the assumptions it yields the verdict, whether the
    solution is optimal, and the model and the conflict it leaves in the
    solver. *)
Variable optimize_and_solve :
  SimpSolver -> list Lit -> lbool * bool * list lbool * list Lit.

(** [int _solve(Monosat::SimpSolver * S, int * assumptions, int n_assumptions)].
    The resource limits, the return to decision level 0, the
    preprocessing and the pseudo-Boolean conversion act on parts of the
    solver that the model does not contain. *)
Definition _solve (S : SimpSolver) (assumptions : list Z)
  : outcome Z * SimpSolver :=
  let S1 := set_last_solution_optimal S true in
  let S2 := set_has_conflict_clause S1 false in
  let S3 := write_out S2 "solve" [] in
  let S4 := fold_left trace_assumption assumptions S3 in
  let S5 := write_out S4 LF [] in
  match check_assumptions S5 assumptions [] with
  | Raise e => (Raise e, S5)
  | Return assume =>
      let '(r, found_optimal, model', conflict') :=
        optimize_and_solve S5 assume in
      let S6 := set_conflict (set_model S5 model') conflict' in
      let S7 := set_last_solution_optimal S6 found_optimal in
      let S8 := if bool_decide (r = l_False)
                then set_has_conflict_clause S7 true else S7 in
      (Return (lbool_toInt r), S8)
  end.

(** [int solveAssumptionsLimited(S, int * assumptions, int n_assumptions)] *)
Definition solveAssumptionsLimited (S : SimpSolver) (assumptions : list Z)
  : outcome Z * SimpSolver :=
  _solve S assumptions.

(** [bool solveAssumptions(S, int * assumptions, int n_assumptions)]:
    [_solve(S,assumptions,n_assumptions) == toInt(l_True)]. *)
Definition solveAssumptions (S : SimpSolver) (assumptions : list Z)
  : outcome bool * SimpSolver :=
  match _solve S assumptions with
  | (Return z, S') => (Return (z =? lbool_toInt l_True), S')
  | (Raise e, S') => (Raise e, S')
  end.

(** [bool solve(Monosat::SimpSolver * S)] *)
Definition solve (S : SimpSolver) : outcome bool * SimpSolver :=
  solveAssumptions S [].

(** [int solveLimited(Monosat::SimpSolver * S)] *)
Definition solveLimited (S : SimpSolver) : outcome Z * SimpSolver :=
  solveAssumptionsLimited S [].

End Solving.

(** [void minimizeConflictClause(Monosat::SimpSolver * S)] *)
Definition minimizeConflictClause (solve_under : list Lit -> lbool)
  (S : SimpSolver) : SimpSolver :=
  if has_conflict_clause_from_last_solution S then
    let assumptions := map (fun l => externalLit S (lit_neg l)) (conflict S) in
    snd (minimizeUnsatCore solve_under S assumptions)
  else S.

(** [int newBVComparison_bv_neq(S, bv, bvID, compareID)] *)
Definition newBVComparison_bv_neq (S : SimpSolver) (bv : BVTheorySolver)
  (bvID compareID : Z) : Z * SimpSolver * BVTheorySolver :=
  let '(e, S1, bv1) := newBVComparison_bv_eq S bv bvID compareID in
  (externalLit S1 (lit_neg (internalLit S1 e)), S1, bv1).

(** [int bv_nBits(S, bv, int bvID)] *)
Definition bv_nBits (S : SimpSolver) (bv : BVTheorySolver) (bvID : Z) : Z :=
  Z.of_nat (length (getBits bv (internalBV bv bvID))).

(** [int bv_bit(S, bv, int bvID, int bit)].  The bound of the check is
    [bv_nBits(S,bv,internalBV(bv,bvID))], which maps the identifier once
    more.  Reading a vector outside its size is undefined: the result is
    then [None]. *)
Definition bv_bit (S : SimpSolver) (bv : BVTheorySolver) (bvID bit : Z)
  : outcome (option Z) :=
  if (bit <? 0) || (bv_nBits S bv (internalBV bv bvID) <=? bit) then
    Raise (runtime_error (Some "BV bit out of range"%string))
  else
    Return (externalLit S <$>
              (toSolver bv <$>
                 getBits bv (internalBV bv bvID) !! Z.to_nat bit)).

(** The operator nodes that the functions below hand to the bitvector
    theory.

    Modelled from the spec: the operator DAG of [BVTheorySolver] is
    missing; its nodes include [unary]. *)
Inductive bv_node : Type :=
| UnaryBV (resultID : Z) (args : list Lit).

(** The first loop of [bv_unary]: every argument must be a positive
    literal; the literals are collected in [m_args]. *)
Fixpoint unary_lits (S : SimpSolver) (args : list Z) (m_args : list Lit)
  : outcome (list Lit) :=
  match args with
  | [] => Return m_args
  | a :: rest =>
      let l := internalLit S a in
      if sign l then
        Raise (api_errorf "Unary arguments must all be positive literals" [])
      else unary_lits S rest (m_args ++ [l])
  end.

(** The second loop of [bv_unary], from the literal before the current
    one: [var(m_args[i]) != var(m_args[i-1])+1] is an error. *)
Fixpoint unary_sequential (prev : Lit) (rest : list Lit) : bool :=
  match rest with
  | [] => true
  | l :: rest' =>
      if var l =? var prev + 1 then unary_sequential l rest' else false
  end.

(** [void bv_unary(S, bv, int * args, int n_args, int resultID)]; [nodes]
    are the operator nodes of the theory.

    Modelled from the spec: [BVTheorySolver::getUnary] is missing; it adds
    a unary node over the literals for the result bitvector. *)
Definition bv_unary (S : SimpSolver) (bv : BVTheorySolver)
  (nodes : list bv_node) (args : list Z) (resultID : Z)
  : outcome unit * SimpSolver * list bv_node :=
  match unary_lits S args [] with
  | Raise e => (Raise e, S, nodes)
  | Return m_args =>
      if match m_args with
         | [] => true
         | l :: rest => unary_sequential l rest
         end
      then
        let S1 := write_out S "bv unary %d %d"
                    [va_int resultID; va_int (Z.of_nat (length args))] in
        let S2 := fold_left
                    (fun S' l => write_out S' " %d" [va_int (dimacs_lit S' l)])
                    m_args S1 in
        let S3 := write_out S2 LF [] in
        (Return tt, S3, nodes ++ [UnaryBV (internalBV bv resultID) m_args])
      else
        (Raise (api_errorf "Unary arguments must be sequential" []), S, nodes)
  end.

(** The API functions that post clauses.  [Solver::addClause] returns
    whether the solver is still consistent; the model of the solver keeps
    the posted clauses only, so these functions yield the solver. *)
Module API.

(** [S->addClause], the method of the solver, as opposed to the API
    function of the same name below. *)
Local Abbreviation Solver_addClause := addClause (only parsing).

(** The loop of [addClause] that traces the literals of the clause. *)
Definition trace_lit (S : SimpSolver) (l : Lit) : SimpSolver :=
  write_out S "%d " [va_int (dimacs_lit S l)].

(** [bool addClause(Monosat::SimpSolver * S, int * lits, int n_lits)] *)
Definition addClause (S : SimpSolver) (lits : list Z) : SimpSolver :=
  let clause := map (internalLit S) lits in
  let S1 := fold_left trace_lit clause S in
  let S2 := write_out S1 ("0" ++ LF) [] in
  Solver_addClause S2 clause.

(** [bool addUnitClause(Monosat::SimpSolver * S, int lit)] *)
Definition addUnitClause (S : SimpSolver) (lit : Z) : SimpSolver :=
  let S1 := write_out S ("%d 0" ++ LF)
              [va_int (dimacs_lit S (internalLit S lit))] in
  Solver_addClause S1 [internalLit S1 lit].

(** [bool addBinaryClause(Monosat::SimpSolver * S, int lit1, int lit2)] *)
Definition addBinaryClause (S : SimpSolver) (lit1 lit2 : Z) : SimpSolver :=
  let S1 := write_out S ("%d %d 0" ++ LF)
              [va_int (dimacs_lit S (internalLit S lit1));
               va_int (dimacs_lit S (internalLit S lit2))] in
  Solver_addClause S1 [internalLit S1 lit1; internalLit S1 lit2].

(** [bool addTertiaryClause(Monosat::SimpSolver * S, int lit1, int lit2, int lit3)] *)
Definition addTertiaryClause (S : SimpSolver) (lit1 lit2 lit3 : Z)
  : SimpSolver :=
  let S1 := write_out S ("%d %d %d 0" ++ LF)
              [va_int (dimacs_lit S (internalLit S lit1));
               va_int (dimacs_lit S (internalLit S lit2));
               va_int (dimacs_lit S (internalLit S lit3))] in
  Solver_addClause S1
    [internalLit S1 lit1; internalLit S1 lit2; internalLit S1 lit3].

(** [void addBinaryClauses(S, int * first_args, int * second_args, int n_pairs)];
    both arrays have [n_pairs] entries. *)
Definition addBinaryClauses (S : SimpSolver) (first_args second_args : list Z)
  : SimpSolver :=
  fold_left (fun S' p => addBinaryClause S' (fst p) (snd p))
            (combine first_args second_args) S.

End API.

(** ** Witness paths *)

(** The conversion of an [int] to [size_t] in the comparison
    [store_length < store_path.size()]. *)
Definition size_t_of_int (i : Z) : Z := i mod 2 ^ 64.

(** The loop [store[i] = store_path[i]].  A store outside the array is
    undefined in C; the list update leaves the array alone there. *)
Fixpoint copy_path (i : nat) (store_path : list Z) (store : list Z) : list Z :=
  match store_path with
  | [] => store
  | n :: rest => copy_path (Datatypes.S i) rest (<[i := n]> store)
  end.

Section Paths.

(** [GraphTheorySolver::getModel_Path(l, store_path)] is outside the API
    file: it fails on a literal without a witness path and fills
    [store_path] with the nodes of the path otherwise. *)
Variable getModel_Path : GraphTheorySolver -> Lit -> option (list Z).

(** [int getModel_Path_Nodes_Length(S, G, int reach_or_distance_literal)];
    the size of a path is a number of nodes and fits an [int]. *)
Definition getModel_Path_Nodes_Length (S : SimpSolver)
  (G : GraphTheorySolver) (reach_or_distance_literal : Z) : Z :=
  let l := internalLit S reach_or_distance_literal in
  match getModel_Path G l with
  | None => -1
  | Some store_path => Z.of_nat (length store_path)
  end.

(** [int getModel_Path_Nodes(S, G, int reach_or_distance_literal, int store_length, int * store)];
    the result is the returned value and the caller's array after the
    call. *)
Definition getModel_Path_Nodes (S : SimpSolver) (G : GraphTheorySolver)
  (reach_or_distance_literal : Z) (store_length : Z) (store : list Z)
  : Z * list Z :=
  let l := internalLit S reach_or_distance_literal in
  match getModel_Path G l with
  | None => (-1, store)
  | Some store_path =>
      if size_t_of_int store_length <? Z.of_nat (length store_path) then
        (Z.of_nat (length store_path), store)
      else
        (Z.of_nat (length store_path), copy_path 0 store_path store)
  end.

End Paths.

(** ** Strings of the finite-state-machine theory *)

(** Modelled from the spec: class [FSMTheorySolver] is missing; the model
    keeps the strings handed to [newString], whose identifier is their
    position. *)
Record FSMTheorySolver : Type := mkFSM {
  fsm_strings : list (list Z)
}.

(** The FSM theories that exist (a pointer is a position in [fsm_heap],
    [None] is [nullptr]) and the field [fsm_theory] of [MonosatData]. *)
Record FSMData : Type := mkFSMData {
  fsm_heap : list FSMTheorySolver;
  d_fsm_theory : option nat
}.

(** [Monosat::FSMTheorySolver * initFSMTheory(Monosat::SimpSolver * S)] *)
Definition initFSMTheory (D : FSMData) : nat * FSMData :=
  match d_fsm_theory D with
  | Some theory => (theory, D)
  | None =>
      let theory := length (fsm_heap D) in
      (theory, mkFSMData (fsm_heap D ++ [mkFSM []]) (Some theory))
  end.

(** Modelled from the spec: [FSMTheorySolver::nStrings] is missing; it
    counts the strings of the theory. *)
Definition nStrings (D : FSMData) (theory : nat) : Z :=
  match fsm_heap D !! theory with
  | Some t => Z.of_nat (length (fsm_strings t))
  | None => 0
  end.

(** Modelled from the spec: [FSMTheorySolver::newString] is missing; it
    stores the string and returns its identifier. *)
Definition FSM_newString (D : FSMData) (theory : nat) (str : list Z)
  : Z * FSMData :=
  (nStrings D theory,
   mkFSMData
     (alter (fun t => mkFSM (fsm_strings t ++ [str])) theory (fsm_heap D))
     (d_fsm_theory D)).

(** The first loop of [newString]: a label that is not positive is
    reported with its position and the number of strings of the theory. *)
Fixpoint check_labels (n_strings : Z) (i : Z) (str : list Z)
  (acc : list Z) : outcome (list Z) :=
  match str with
  | [] => Return acc
  | label :: rest =>
      if label <=? 0 then
        Raise (api_errorf
                 "String must consist of positive integers, found %d at position %d in string %d"
                 [va_int label; va_int i; va_int n_strings])
      else check_labels n_strings (i + 1) rest (acc ++ [label])
  end.

(** [int newString(S, Monosat::FSMTheorySolver * fsmTheory, int * str, int len)] *)
Definition newString (S : SimpSolver) (D : FSMData) (fsmTheory : option nat)
  (str : list Z) : outcome Z * SimpSolver * FSMData :=
  let '(theory, D1) :=
    match fsmTheory with
    | None => initFSMTheory D
    | Some theory => (theory, D)
    end in
  match check_labels (nStrings D1 theory) 0 str [] with
  | Raise e => (Raise e, S, D1)
  | Return string =>
      let '(strID, D2) := FSM_newString D1 theory string in
      let S1 := write_out S "str %d" [va_int strID] in
      let S2 := fold_left
                  (fun S' label => write_out S' " %d" [va_int label])
                  str S1 in
      let S3 := write_out S2 LF [] in
      (Return strID, S3, D2)
  end.

(** A store of FSM theories with one registered theory holding one
    string. *)
Definition exampleFSMData : FSMData :=
  mkFSMData [mkFSM [[1; 2]]] (Some 0%nat).

(** A solver with a conflict from the last solve, over the variables of
    [fourVarSolver]. *)
Definition conflictSolver : SimpSolver :=
  mkSolver 4 [0; 1; 2; 3] [0; 1; 2; 3] ∅ []
           [mkLit 0 true; mkLit 1 true; mkLit 2 true] []
           (Some []) true true.

(** A solver with one variable whose renaming array sends the external
    variable 1 to the internal variable 5, which the solver has not
    created. *)
Definition danglingSolver : SimpSolver :=
  mkSolver 1 [0; 5] [0] ∅ [] [] [] (Some []) true false.

(** An engine that finds every formula unsatisfiable under its
    assumptions, with the negated assumptions as conflict. *)
Definition refuting_engine (S : SimpSolver) (assume : list Lit)
  : lbool * bool * list lbool * list Lit :=
  (l_False, true, [], map lit_neg assume).

(** A graph whose only witness path, for the literal of internal
    variable 1, visits the nodes 0, 2 and 3. *)
Definition example_getModel_Path (G : GraphTheorySolver) (l : Lit)
  : option (list Z) :=
  if bool_decide (l = mkLit 1 false) then Some [0; 2; 3] else None.

(** ** Facts of the literal algebra *)

Section LiteralFacts.

Lemma var_mkLit (v : Var) (s : bool) : var (mkLit v s) = v.
Proof.
  unfold var, mkLit; cbn [lit_x].
  rewrite Z.shiftr_div_pow2 by lia.
  change (2 ^ 1) with 2.
  destruct s; simpl Z.b2z.
  - replace (v + v + 1) with (1 + v * 2) by lia.
    rewrite Z.div_add by lia. reflexivity.
  - replace (v + v + 0) with (0 + v * 2) by lia.
    rewrite Z.div_add by lia. reflexivity.
Qed.

Lemma sign_mkLit (v : Var) (s : bool) : sign (mkLit v s) = s.
Proof.
  unfold sign, mkLit; cbn [lit_x].
  rewrite Z.bit0_odd.
  replace (v + v + Z.b2z s) with (Z.b2z s + 2 * v) by lia.
  rewrite Z.odd_add_mul_2. now destruct s.
Qed.

Lemma mkLit_var_sign (p : Lit) : mkLit (var p) (sign p) = p.
Proof.
  destruct p as [z]. unfold mkLit, var, sign; cbn [lit_x]. f_equal.
  rewrite Z.shiftr_div_pow2 by lia. change (2 ^ 1) with 2.
  rewrite Z.bit0_odd.
  pose proof (Z.div_mod z 2 ltac:(lia)) as Hdm.
  rewrite Zmod_odd in Hdm.
  destruct (Z.odd z); simpl Z.b2z; lia.
Qed.

Lemma var_lit_neg (p : Lit) : var (lit_neg p) = var p.
Proof.
  unfold var, lit_neg; cbn [lit_x].
  rewrite Z.shiftr_lxor. change (Z.shiftr 1 1) with 0.
  now rewrite Z.lxor_0_r.
Qed.

Lemma sign_lit_neg (p : Lit) : sign (lit_neg p) = negb (sign p).
Proof.
  unfold sign, lit_neg; cbn [lit_x].
  rewrite Z.lxor_spec. change (Z.testbit 1 0) with true.
  now rewrite xorb_true_r.
Qed.

Lemma lit_neg_involutive (p : Lit) : lit_neg (lit_neg p) = p.
Proof.
  destruct p as [z]. unfold lit_neg; cbn [lit_x]. f_equal.
  rewrite Z.lxor_assoc. change (Z.lxor 1 1) with 0.
  apply Z.lxor_0_r.
Qed.

Lemma lit_neg_mkLit (v : Var) (s : bool) :
  lit_neg (mkLit v s) = mkLit v (negb s).
Proof.
  rewrite <- (mkLit_var_sign (lit_neg (mkLit v s))).
  now rewrite var_lit_neg, sign_lit_neg, var_mkLit, sign_mkLit.
Qed.

End LiteralFacts.

(** ** The literal encoding *)

Section Int32Facts.

Lemma int32_in_range (z : Z) : - 2 ^ 31 <= z < 2 ^ 31 -> int32 z = z.
Proof. intros H. unfold int32. rewrite Z.mod_small; lia. Qed.

Lemma int32_above (z : Z) :
  2 ^ 31 <= z < 2 ^ 31 + 2 ^ 32 -> int32 z = z - 2 ^ 32.
Proof.
  intros H. unfold int32.
  rewrite <- (Z.mod_unique (z + 2 ^ 31) (2 ^ 32) 1 (z + 2 ^ 31 - 2 ^ 32));
    lia.
Qed.

Lemma int32_below (z : Z) :
  - 2 ^ 31 - 2 ^ 32 <= z < - 2 ^ 31 -> int32 z = z + 2 ^ 32.
Proof.
  intros H. unfold int32.
  rewrite <- (Z.mod_unique (z + 2 ^ 31) (2 ^ 32) (-1) (z + 2 ^ 31 + 2 ^ 32));
    lia.
Qed.

Lemma int32_range (z : Z) : - 2 ^ 31 <= int32 z < 2 ^ 31.
Proof.
  unfold int32. pose proof (Z.mod_pos_bound (z + 2 ^ 31) (2 ^ 32)). lia.
Qed.

End Int32Facts.

(** C3, as the specification states it, fails: the variable [2^30] is
    not negative, and [varToLit] gives [-2^31] for it, not [2 * 2^30]:
    the sum of [int]s has left the range of [int]. *)
Lemma varToLit_dimacs_encoding_counterexample :
  0 <= 2 ^ 30
  /\ varToLit (2 ^ 30) false = - 2 ^ 31
  /\ varToLit (2 ^ 30) false <> 2 * 2 ^ 30 + Z.b2z false.
Proof. split; [lia|]. split; [reflexivity|]. vm_compute. discriminate. Qed.

(** C3, amended.  For every variable [v] with [0 <= v < 2^30] and every
    [s], [varToLit v s] is [2*v + s], and its DIMACS number is [v + 1]
    with the sign of [s]; for a variable from [2^30] on (below [2^31])
    the sum overflows and the result is [2*v + s - 2^32].  For every
    [int] [e], [dimacs e] is [-(var+1)] when the low bit of [e] is set and
    [var+1] otherwise, where [var = e div 2] (rounded down), and this
    number is an [int]. *)
Theorem varToLit_dimacs_encoding :
  (forall (v : Z) (s : bool),
      0 <= v < 2 ^ 30 ->
      varToLit v s = 2 * v + Z.b2z s
      /\ dimacs (varToLit v s) = if s then - (v + 1) else v + 1)
  /\ (forall (v : Z) (s : bool),
         2 ^ 30 <= v < 2 ^ 31 ->
         varToLit v s = 2 * v + Z.b2z s - 2 ^ 32)
  /\ (forall e : Z,
         - 2 ^ 31 <= e < 2 ^ 31 ->
         dimacs e = (if Z.testbit e 0 then - (e / 2 + 1) else e / 2 + 1)
         /\ - 2 ^ 31 <= dimacs e < 2 ^ 31).
Proof.
  split; [|split].
  - intros v s Hv.
    assert (Hs : 0 <= Z.b2z s <= 1) by (destruct s; cbn; lia).
    assert (Hx : varToLit v s = toInt (mkLit v s)).
    { unfold varToLit. apply int32_in_range.
      unfold toInt, mkLit; cbn [lit_x]. lia. }
    split.
    + rewrite Hx. unfold toInt, mkLit; cbn [lit_x]. lia.
    + rewrite Hx. unfold dimacs.
      change (toLit (toInt (mkLit v s))) with (mkLit v s).
      rewrite sign_mkLit, var_mkLit. reflexivity.
  - intros v s Hv.
    assert (Hs : 0 <= Z.b2z s <= 1) by (destruct s; cbn; lia).
    unfold varToLit, toInt, mkLit; cbn [lit_x].
    rewrite int32_above by lia. lia.
  - intros e He. unfold dimacs, sign, var, toLit; cbn [lit_x].
    rewrite Z.shiftr_div_pow2 by lia. change (2 ^ 1) with 2.
    split; [reflexivity|].
    assert (- 2 ^ 30 <= e / 2 < 2 ^ 30).
    { split.
      - apply Z.div_le_lower_bound; lia.
      - apply Z.div_lt_upper_bound; lia. }
    destruct (Z.testbit e 0); lia.
Qed.

Lemma varToLit_dimacs_encoding_witness :
  (varToLit 3 true = 7 /\ dimacs (varToLit 3 true) = - 4)
  /\ varToLit (2 ^ 31 - 1) true = - 1
  /\ dimacs (- 7) = - (- 4 + 1).
Proof.
  destruct varToLit_dimacs_encoding as (Hlow & Hhigh & Hd).
  split; [|split].
  - apply (Hlow 3 true). lia.
  - rewrite (Hhigh (2 ^ 31 - 1) true) by lia. reflexivity.
  - destruct (Hd (- 7)) as [-> _]; [lia|]. reflexivity.
Defined.

(** On the variables below [2^30] the result of [varToLit] is a
    non-negative [int]. *)
Lemma varToLit_int_range (v : Z) (s : bool) :
  0 <= v < 2 ^ 30 -> 0 <= varToLit v s < 2 ^ 31.
Proof.
  intros Hv. unfold varToLit.
  assert (Hs : 0 <= Z.b2z s <= 1) by (destruct s; cbn; lia).
  rewrite int32_in_range; unfold toInt, mkLit; cbn [lit_x]; lia.
Qed.

Lemma dimacs_int_range (e : Z) :
  - 2 ^ 31 <= e < 2 ^ 31 -> - 2 ^ 30 <= dimacs e <= 2 ^ 30.
Proof.
  intros He. unfold dimacs, sign, var, toLit; cbn [lit_x].
  rewrite Z.shiftr_div_pow2 by lia. change (2 ^ 1) with 2.
  assert (- 2 ^ 30 <= e / 2 < 2 ^ 30).
  { split.
    - apply Z.div_le_lower_bound; lia.
    - apply Z.div_lt_upper_bound; lia. }
  destruct (Z.testbit e 0); lia.
Qed.

(** ** The var-map layer *)

Section VarMapFacts.

Lemma lookup_var_app_l (a b : list Var) (i : Var) :
  i < Z.of_nat (length a) -> lookup_var (a ++ b) i = lookup_var a i.
Proof.
  intros Hi. unfold lookup_var.
  destruct (i <? 0) eqn:Hneg; [reflexivity|].
  apply Z.ltb_ge in Hneg.
  rewrite lookup_app_l by lia. reflexivity.
Qed.

Lemma lookup_var_app_new (a : list Var) (x : Var) :
  lookup_var (a ++ [x]) (Z.of_nat (length a)) = x.
Proof.
  unfold lookup_var.
  destruct (Z.of_nat (length a) <? 0) eqn:Hneg.
  - apply Z.ltb_lt in Hneg. lia.
  - rewrite Nat2Z.id, lookup_app_r by lia.
    now rewrite Nat.sub_diag.
Qed.

Lemma lookup_var_defined (a : list Var) (i : Var) :
  lookup_var a i <> var_Undef -> 0 <= i < Z.of_nat (length a).
Proof.
  unfold lookup_var. intros H.
  destruct (i <? 0) eqn:Hneg; [congruence|].
  apply Z.ltb_ge in Hneg.
  destruct (a !! Z.to_nat i) eqn:Hl; [|simpl in H; congruence].
  apply lookup_lt_Some in Hl. lia.
Qed.

Lemma lookup_var_outside (a : list Var) (i : Var) :
  Z.of_nat (length a) <= i -> lookup_var a i = var_Undef.
Proof.
  intros Hi. unfold lookup_var.
  destruct (i <? 0); [reflexivity|].
  rewrite lookup_ge_None_2 by lia. reflexivity.
Qed.

Lemma allocatedVar_spec (S : SimpSolver) (v : Var) :
  allocatedVar S v = true <-> 0 <= v /\ mapVar S v <> var_Undef.
Proof.
  unfold allocatedVar.
  rewrite andb_true_iff, negb_true_iff, Z.leb_le, Z.eqb_neq. tauto.
Qed.

Lemma unmap_mapLit (S : SimpSolver) (l : Lit) :
  varmap_ok S -> allocatedVar S (var l) = true -> unmap S (mapLit S l) = l.
Proof.
  intros Hok Hal. apply allocatedVar_spec in Hal as [Hv Hm].
  unfold unmap, mapLit. rewrite var_mkLit, sign_mkLit.
  destruct (vm_ext_int S Hok (var l) Hv Hm) as [_ ->].
  apply mkLit_var_sign.
Qed.

Lemma mapLit_unmap (S : SimpSolver) (l : Lit) :
  varmap_ok S -> 0 <= var l -> unmapVar S (var l) <> var_Undef ->
  mapLit S (unmap S l) = l.
Proof.
  intros Hok Hv Hm.
  unfold unmap, mapLit. rewrite var_mkLit, sign_mkLit.
  destruct (vm_int_ext S Hok (var l) Hv Hm) as [_ ->].
  apply mkLit_var_sign.
Qed.

Lemma varmap_ok_empty : varmap_ok emptySolver.
Proof.
  split; [reflexivity| |]; intros i Hi H; exfalso; apply H;
    unfold mapVar, unmapVar, lookup_var; simpl;
    destruct (i <? 0); reflexivity.
Qed.

End VarMapFacts.

(** C2.  For every allocated external literal [e] of a solver whose
    var-map is a bijection, [externalLit S (internalLit S e) = e]. *)
Theorem externalLit_internalLit (S : SimpSolver) (e : Z) :
  varmap_ok S -> allocatedLit S e = true ->
  externalLit S (internalLit S e) = e.
Proof.
  intros Hok Hal. unfold externalLit, internalLit.
  rewrite unmap_mapLit by assumption. reflexivity.
Qed.

Lemma slot_ok_sound (fwd bwd : list Var) (i : Var) :
  forallb (slot_ok fwd bwd) (seq 0 (length fwd)) = true ->
  0 <= i -> lookup_var fwd i <> var_Undef ->
  0 <= lookup_var fwd i /\ lookup_var bwd (lookup_var fwd i) = i.
Proof.
  intros Hall Hi Hdef.
  pose proof (lookup_var_defined fwd i Hdef) as Hrange.
  rewrite forallb_forall in Hall.
  specialize (Hall (Z.to_nat i)).
  unfold slot_ok in Hall. rewrite Z2Nat.id in Hall by lia.
  assert (Hin : In (Z.to_nat i) (seq 0 (length fwd))) by (apply in_seq; lia).
  apply Hall in Hin.
  apply orb_true_iff in Hin as [Hu | Hok].
  - apply Z.eqb_eq in Hu. contradiction.
  - apply andb_true_iff in Hok as [H0 Hb].
    apply Z.leb_le in H0. apply Z.eqb_eq in Hb. split; assumption.
Qed.

Lemma varmap_okb_sound (S : SimpSolver) : varmap_okb S = true -> varmap_ok S.
Proof.
  unfold varmap_okb. rewrite !andb_true_iff. intros [[Hn Hf] Hb].
  apply Z.eqb_eq in Hn.
  split; [exact Hn | |]; intros i Hi Hdef.
  - apply (slot_ok_sound (var_map S) (var_reverse_map S) i Hf Hi Hdef).
  - apply (slot_ok_sound (var_reverse_map S) (var_map S) i Hb Hi Hdef).
Qed.

Lemma externalLit_internalLit_witness :
  varmap_okb swapSolver = true /\ allocatedLit swapSolver 3 = true /\
  externalLit swapSolver (internalLit swapSolver 3) = 3.
Proof.
  split; [reflexivity|]. split; [reflexivity|].
  apply (externalLit_internalLit swapSolver 3).
  - apply varmap_okb_sound. reflexivity.
  - reflexivity.
Defined.

(** ** Model queries *)

Lemma sign_internalLit (S : SimpSolver) (lit : Z) :
  sign (internalLit S lit) = Z.testbit lit 0.
Proof. unfold internalLit, mapLit. now rewrite sign_mkLit. Qed.

Lemma var_internalLit (S : SimpSolver) (lit : Z) :
  var (internalLit S lit) = mapVar S (var (toLit lit)).
Proof. unfold internalLit, mapLit. now rewrite var_mkLit. Qed.

(** C10.  [getModel_Literal S lit] raises an error exactly when the
    variable of the literal is negative or not allocated; for an allocated
    variable at or beyond the size of the stored model it returns 2; and
    otherwise it returns the model value of the variable, flipped when the
    sign bit of the literal is set. *)
Theorem getModel_Literal_cases (S : SimpSolver) (lit : Z) :
  let v := var (internalLit S lit) in
  (raised (getModel_Literal S lit) = true <-> v < 0 \/ n_vars S <= v) /\
  (0 <= v < n_vars S -> Z.of_nat (length (model S)) <= v ->
   getModel_Literal S lit = Return 2) /\
  (0 <= v < n_vars S -> v < Z.of_nat (length (model S)) ->
   getModel_Literal S lit =
     Return (lbool_toInt (if Z.testbit lit 0
                          then lbool_flip (model_at S v)
                          else model_at S v))).
Proof.
  intros v. unfold getModel_Literal. fold v.
  rewrite sign_internalLit.
  destruct (v <? 0) eqn:Hneg; [apply Z.ltb_lt in Hneg | apply Z.ltb_ge in Hneg];
    simpl orb.
  { split; [|split]; [split; [left; lia | reflexivity] | lia | lia]. }
  destruct (n_vars S <=? v) eqn:Hn; [apply Z.leb_le in Hn | apply Z.leb_gt in Hn].
  { split; [|split]; [split; [right; lia | reflexivity] | lia | lia]. }
  destruct (Z.of_nat (length (model S)) <=? v) eqn:Hm;
    [apply Z.leb_le in Hm | apply Z.leb_gt in Hm].
  - split; [|split]; [split; [discriminate | lia] | reflexivity | lia].
  - split; [|split]; [split; [discriminate | lia] | lia |].
    intros _ _. destruct (Z.testbit lit 0); [|reflexivity].
    destruct (model_at S v); reflexivity.
Qed.

Lemma getModel_Literal_cases_witness :
  getModel_Literal swapSolver 3 = Return 1 /\
  getModel_Literal swapSolver 0 = Return 1 /\
  (raised (getModel_Literal swapSolver 4) = true <->
   var (internalLit swapSolver 4) < 0
   \/ n_vars swapSolver <= var (internalLit swapSolver 4)).
Proof.
  split; [|split].
  - apply (proj2 (proj2 (getModel_Literal_cases swapSolver 3)));
      vm_compute; split; congruence.
  - apply (proj2 (proj2 (getModel_Literal_cases swapSolver 0)));
      vm_compute; split; congruence.
  - apply (proj1 (getModel_Literal_cases swapSolver 4)).
Defined.

(** ** Algorithm selection *)

Section StrcasecmpFacts.

Lemma tolower_nonneg (c : ascii) : 0 <= tolower c.
Proof.
  unfold tolower.
  destruct ((65 <=? Z.of_N (N_of_ascii c)) && (Z.of_N (N_of_ascii c) <=? 90));
    lia.
Qed.

Lemma tolower_zero (c : ascii) : (tolower c =? 0) = Ascii.eqb c zero.
Proof.
  destruct c as [[] [] [] [] [] [] [] []]; reflexivity.
Qed.

Lemma strcasecmp_zero (s t : string) :
  strcasecmp s t = 0 <-> eq_ignore_case (c_str s) (c_str t).
Proof.
  unfold eq_ignore_case, list_of_string.
  revert t. induction s as [|c s IH]; intros [|d t]; simpl.
  - tauto.
  - rewrite <- tolower_zero.
    destruct (tolower d =? 0) eqn:Hd; simpl.
    + apply Z.eqb_eq in Hd. split; [reflexivity | lia].
    + apply Z.eqb_neq in Hd. split; [lia | discriminate].
  - rewrite <- tolower_zero.
    destruct (tolower c =? 0) eqn:Hc; simpl.
    + apply Z.eqb_eq in Hc. split; [reflexivity | lia].
    + apply Z.eqb_neq in Hc. split; [lia | discriminate].
  - rewrite <- !tolower_zero.
    destruct (tolower c =? tolower d) eqn:Hcd.
    + apply Z.eqb_eq in Hcd. rewrite <- Hcd.
      destruct (tolower c =? 0) eqn:Hc; simpl.
      * tauto.
      * rewrite IH. rewrite <- Hcd.
        split; [intros ->; reflexivity | intros H; now inversion H].
    + apply Z.eqb_neq in Hcd.
      destruct (tolower c =? 0) eqn:Hc; destruct (tolower d =? 0) eqn:Hd;
        simpl;
        try apply Z.eqb_eq in Hc; try apply Z.eqb_eq in Hd;
        (split; [lia | intros H; try discriminate H; inversion H; lia]).
Qed.

End StrcasecmpFacts.

(** C8, as the specification states it, fails: the switchboard also
    accepts the spellings [dinics] and [dinits], and it compares without
    regard to case. *)
Lemma maxflow_alg_names_counterexample :
  (select_mincutalg "dinics" = Return ALG_DINITZ
   /\ ~ In "dinics"%string spec_maxflow_names)
  /\ (select_mincutalg "DINITZ" = Return ALG_DINITZ
      /\ ~ In "DINITZ"%string spec_maxflow_names).
Proof.
  split; (split; [reflexivity|]);
    simpl; intros H; repeat destruct H as [H|H]; try discriminate H; exact H.
Qed.

(** C8, amended.  The strings accepted for [opt_maxflow_alg] are exactly
    those equal, up to the case of ASCII letters, to one of edmondskarp,
    edmondskarp-adj, edmondskarp-dynamic, dinics, dinics-linkcut, dinitz,
    dinitz-linkcut, dinits, dinits-linkcut, kohli-torr; every other string
    makes the selection abort with the error reported to the caller. *)
Theorem maxflow_alg_names (s : string) :
  (raised (select_mincutalg s) = false <->
   exists n, In n maxflow_names /\ eq_ignore_case (c_str s) n)
  /\ (raised (select_mincutalg s) = true ->
      select_mincutalg s =
        Raise (api_errorf
                 ("Error: unknown max-flow/min-cut algorithm %s, aborting" ++ LF)
                 [va_str (c_str s)])).
Proof.
  assert (Hname : forall n, In n maxflow_names ->
            (strcasecmp s n =? 0) = true <-> eq_ignore_case (c_str s) n).
  { intros n Hn. rewrite Z.eqb_eq, strcasecmp_zero.
    assert (Hc : c_str n = n)
      by (simpl in Hn; repeat destruct Hn as [<-|Hn]; try reflexivity;
          contradiction).
    now rewrite Hc. }
  unfold select_mincutalg.
  repeat match goal with
         | |- context [strcasecmp s ?n =? 0] =>
             let E := fresh "E" in
             destruct (strcasecmp s n =? 0) eqn:E;
             [ split; [split; [intros _; exists n; split;
                                [simpl; tauto | apply Hname; [simpl; tauto | exact E]]
                              | reflexivity]
                      | discriminate]
             | ]
         end.
  split; [|reflexivity].
  split; [discriminate|].
  intros [n [Hn Heq]]. apply Hname in Heq; [|exact Hn].
  simpl in Hn.
  repeat destruct Hn as [<-|Hn]; try congruence. contradiction.
Qed.

Lemma maxflow_alg_names_witness :
  raised (select_mincutalg "Dinics-LinkCut") = false
  /\ select_mincutalg "push-relabel" =
       Raise (api_errorf
                ("Error: unknown max-flow/min-cut algorithm %s, aborting" ++ LF)
                [va_str "push-relabel"]).
Proof.
  split.
  - apply (proj1 (maxflow_alg_names "Dinics-LinkCut")).
    exists "dinics-linkcut"%string. split; [simpl; tauto | reflexivity].
  - apply (proj2 (maxflow_alg_names "push-relabel")). reflexivity.
Defined.

(** ** Trace lines and hash-consed predicates *)

Section TraceFacts.

Lemma write_out_maps (S : SimpSolver) fmt args :
  var_map (write_out S fmt args) = var_map S
  /\ var_reverse_map (write_out S fmt args) = var_reverse_map S
  /\ n_vars (write_out S fmt args) = n_vars S.
Proof. unfold write_out. destruct (outfile S); auto. Qed.

Lemma externalLit_write_out (S : SimpSolver) fmt args (l : Lit) :
  externalLit (write_out S fmt args) l = externalLit S l.
Proof.
  unfold externalLit, unmap, unmapVar.
  now destruct (write_out_maps S fmt args) as (_ & -> & _).
Qed.

Lemma internalLit_write_out (S : SimpSolver) fmt args (e : Z) :
  internalLit (write_out S fmt args) e = internalLit S e.
Proof.
  unfold internalLit, mapLit, mapVar.
  now destruct (write_out_maps S fmt args) as (-> & _ & _).
Qed.

Lemma write_out_outfile (S : SimpSolver) fmt args out :
  outfile S = Some out ->
  outfile (write_out S fmt args) = Some (out ++ [vfprintf fmt args]).
Proof. unfold write_out. intros ->. reflexivity. Qed.

End TraceFacts.

(** C9.  With an output file set, the chunk that
    [minimumSpanningTree_leq] writes is not the line
    [mst_weight_leq <gid> <lit> <k>]: its format has six conversions for
    three arguments, so the written text is undefined, while the line of
    the grammar with the graph id, the literal and the weight is a defined
    text. *)
Theorem minimumSpanningTree_leq_trace (S : SimpSolver) (G : GraphTheorySolver)
  (weight : Z) (out : list (option string)) :
  outfile S = Some out ->
  let '(e, S', _) := minimumSpanningTree_leq S G weight in
  outfile S' = Some (out ++ [None])
  /\ n_conversions mst_weight_leq_fmt = 6%nat
  /\ exists line,
       vfprintf gnf_mst_weight_leq_fmt
         [va_int (getGraphID G); va_int (dimacs e); va_int64 weight]
       = Some line.
Proof.
  intros Hout. unfold minimumSpanningTree_leq, newVar, Solver_newVar.
  split; [|split].
  - erewrite write_out_outfile by (simpl; exact Hout). reflexivity.
  - reflexivity.
  - eexists. reflexivity.
Qed.

Lemma minimumSpanningTree_leq_trace_witness :
  outfile (snd (fst (minimumSpanningTree_leq swapSolver (emptyGraph 0) 5)))
  = Some [None]
  /\ vfprintf gnf_mst_weight_leq_fmt
       [va_int 0;
        va_int (dimacs (fst (fst (minimumSpanningTree_leq swapSolver
                                    (emptyGraph 0) 5))));
        va_int64 5]
     = Some ("mst_weight_leq 0 3 5" ++ LF)%string.
Proof.
  pose proof (minimumSpanningTree_leq_trace swapSolver (emptyGraph 0) 5 []
                eq_refl) as H.
  split; [exact (proj1 H) | reflexivity].
Defined.

Section ReachFacts.

Lemma hasReach_true (G : GraphTheorySolver) (u v steps : Z) :
  hasReach G u v steps = true <-> is_Some (reach_lits G !! (u, v, steps)).
Proof. unfold hasReach. apply bool_decide_eq_true. Qed.

Lemma hasReach_false (G : GraphTheorySolver) (u v steps : Z) :
  hasReach G u v steps = false <-> reach_lits G !! (u, v, steps) = None.
Proof.
  unfold hasReach. rewrite bool_decide_eq_false.
  rewrite <- eq_None_not_Some. tauto.
Qed.

(** Posting a predicate leaves its key, and only its key, new in the
    table. *)
Lemma Graph_reaches_dom (S : SimpSolver) (G : GraphTheorySolver)
  (u v outer steps : Z) :
  let '(_, _, G') := Graph_reaches S G u v outer steps in
  hasReach G' u v steps = true
  /\ dom (reach_lits G') = dom (reach_lits G) ∪ {[ (u, v, steps) ]}.
Proof.
  unfold Graph_reaches.
  destruct (reach_lits G !! (u, v, steps)) as [l|] eqn:Hl.
  - split.
    + apply hasReach_true. rewrite Hl. eauto.
    + assert (Hin : (u, v, steps) ∈ dom (reach_lits G))
        by (apply elem_of_dom; rewrite Hl; eauto).
      rewrite (union_comm_L (dom (reach_lits G))).
      symmetry. apply subseteq_union_1_L.
      now apply singleton_subseteq_l.
  - destruct (outer =? var_Undef);
      [destruct (Solver_newVar S) as [x S1]|];
      cbv beta iota zeta; (split;
        [ apply hasReach_true; cbn [reach_lits];
          rewrite lookup_insert_eq; eauto
        | cbn [reach_lits]; rewrite dom_insert_L; apply union_comm_L ]).
Qed.

(** A predicate that is in the table is returned as it is. *)
Lemma reaches_hit (S : SimpSolver) (G : GraphTheorySolver) (u v : Z)
  (l : Lit) :
  reach_lits G !! (u, v, -1) = Some l ->
  reaches S G u v = (externalLit S l, S, G).
Proof.
  intros Hl. unfold reaches.
  assert (Hh : hasReach G u v (-1) = true)
    by (apply hasReach_true; rewrite Hl; eauto).
  rewrite Hh. unfold Graph_reaches. rewrite Hl. reflexivity.
Qed.

(** A new predicate is posted on a fresh variable and traced. *)
Lemma reaches_miss (S : SimpSolver) (G : GraphTheorySolver) (u v : Z) :
  reach_lits G !! (u, v, -1) = None ->
  exists (l : Lit) (S2 : SimpSolver),
    reaches S G u v =
      (externalLit S2 l, S2,
       mkGraph (graph_id G) (<[(u, v, -1) := l]> (reach_lits G))
               (mst_lits G)).
Proof.
  intros Hl. unfold reaches.
  assert (Hh : hasReach G u v (-1) = false) by now apply hasReach_false.
  rewrite Hh. unfold Graph_reaches. rewrite Hl.
  change (var_Undef =? var_Undef) with true. cbv beta iota.
  destruct (Solver_newVar S) as [x S1]. cbv beta iota zeta.
  eexists _, _. reflexivity.
Qed.

(** A new predicate is traced with one line. *)
Lemma reaches_miss_trace (S : SimpSolver) (G : GraphTheorySolver) (u v : Z) :
  reach_lits G !! (u, v, -1) = None ->
  exists (l : Lit) (S2 : SimpSolver),
    reaches S G u v =
      (externalLit S2 l, S2,
       mkGraph (graph_id G) (<[(u, v, -1) := l]> (reach_lits G))
               (mst_lits G))
    /\ forall out, outfile S = Some out ->
                   exists line, outfile S2 = Some (out ++ [line]).
Proof.
  intros Hl. unfold reaches.
  assert (Hh : hasReach G u v (-1) = false) by now apply hasReach_false.
  rewrite Hh. unfold Graph_reaches. rewrite Hl.
  change (var_Undef =? var_Undef) with true. cbv beta iota.
  unfold Solver_newVar. cbv beta iota zeta.
  eexists _, _. split; [reflexivity|].
  intros out Hout. eexists. apply write_out_outfile. exact Hout.
Qed.

(** The bounded predicate: a key that is in the table is returned as it
    is, a new one is posted on a fresh variable and traced with one
    line. *)
Lemma distance_hit (S : SimpSolver) (G : GraphTheorySolver) (u v steps : Z)
  (l : Lit) :
  reach_lits G !! (u, v, int32 (steps - 1)) = Some l ->
  shortestPathUnweighted_lt_const S G u v steps = (externalLit S l, S, G).
Proof.
  intros Hl. unfold shortestPathUnweighted_lt_const.
  assert (Hh : hasReach G u v (int32 (steps - 1)) = true)
    by (apply hasReach_true; rewrite Hl; eauto).
  rewrite Hh. unfold Graph_reaches. rewrite Hl. reflexivity.
Qed.

Lemma distance_miss (S : SimpSolver) (G : GraphTheorySolver) (u v steps : Z) :
  reach_lits G !! (u, v, int32 (steps - 1)) = None ->
  exists (l : Lit) (S2 : SimpSolver),
    shortestPathUnweighted_lt_const S G u v steps =
      (externalLit S2 l, S2,
       mkGraph (graph_id G)
               (<[(u, v, int32 (steps - 1)) := l]> (reach_lits G))
               (mst_lits G))
    /\ forall out, outfile S = Some out ->
                   exists line, outfile S2 = Some (out ++ [line]).
Proof.
  intros Hl. unfold shortestPathUnweighted_lt_const.
  assert (Hh : hasReach G u v (int32 (steps - 1)) = false)
    by now apply hasReach_false.
  rewrite Hh. unfold Graph_reaches. rewrite Hl.
  change (var_Undef =? var_Undef) with true. cbv beta iota.
  unfold Solver_newVar. cbv beta iota zeta.
  eexists _, _. split; [reflexivity|].
  intros out Hout. eexists. apply write_out_outfile. exact Hout.
Qed.

(** The key of the bounded predicate, as a number. *)
Lemma distance_key (steps : Z) :
  - 2 ^ 31 <= steps < 2 ^ 31 ->
  int32 (steps - 1) = if steps =? - 2 ^ 31 then 2 ^ 31 - 1 else steps - 1.
Proof.
  intros H. destruct (steps =? - 2 ^ 31) eqn:E.
  - apply Z.eqb_eq in E. subst steps. reflexivity.
  - apply Z.eqb_neq in E. apply int32_in_range. lia.
Qed.

End ReachFacts.

(** C4, as the specification states it, fails for the smallest [int]:
    there [steps - 1] is not an [int], the subtraction wraps, and the key
    of the posted predicate is [(u, v, 2^31 - 1)], not
    [(u, v, steps - 1)]. *)
Lemma reaches_hash_consed_counterexample :
  let steps := - 2 ^ 31 in
  let '(_, _, G') :=
    shortestPathUnweighted_lt_const swapSolver (emptyGraph 0) 0 1 steps in
  hasReach G' 0 1 (steps - 1) = false
  /\ hasReach G' 0 1 (2 ^ 31 - 1) = true.
Proof. vm_compute. split; reflexivity. Qed.

(** C4, amended.  Posting the same reachability predicate twice is
    idempotent: the second call of [reaches S G u v] returns the external
    literal of the first and writes nothing (solver and graph are left as
    the first call left them), and the same holds of
    [shortestPathUnweighted_lt_const].  The key of [reaches u v] in the
    table of predicates is [(u, v, -1)]; the key of
    [shortestPathUnweighted_lt_const u v steps] is [(u, v, steps - 1)]
    for every [int] [steps] but the smallest, and [(u, v, 2^31 - 1)] for
    the smallest.  The key is the one the functions look up: a call whose
    key is in the table changes neither solver nor graph, a call whose
    key is new writes one trace line. *)
Theorem reaches_hash_consed (S : SimpSolver) (G : GraphTheorySolver)
  (u v : Z) :
  (let '(e1, S1, G1) := reaches S G u v in
   let '(e2, S2, G2) := reaches S1 G1 u v in
   e2 = e1 /\ outfile S2 = outfile S1 /\ S2 = S1 /\ G2 = G1
   /\ hasReach G1 u v (-1) = true
   /\ dom (reach_lits G1) = dom (reach_lits G) ∪ {[ (u, v, -1) ]}
   /\ (hasReach G u v (-1) = true -> S1 = S /\ G1 = G)
   /\ (hasReach G u v (-1) = false ->
       forall out, outfile S = Some out ->
                   exists line, outfile S1 = Some (out ++ [line])))
  /\ (forall steps : Z,
        - 2 ^ 31 <= steps < 2 ^ 31 ->
        let k := if steps =? - 2 ^ 31 then 2 ^ 31 - 1 else steps - 1 in
        let '(e1, S1, G1) := shortestPathUnweighted_lt_const S G u v steps in
        let '(e2, S2, G2) :=
          shortestPathUnweighted_lt_const S1 G1 u v steps in
        e2 = e1 /\ S2 = S1 /\ G2 = G1
        /\ hasReach G1 u v k = true
        /\ dom (reach_lits G1) = dom (reach_lits G) ∪ {[ (u, v, k) ]}
        /\ (hasReach G u v k = true -> S1 = S /\ G1 = G)
        /\ (hasReach G u v k = false ->
            forall out, outfile S = Some out ->
                        exists line, outfile S1 = Some (out ++ [line]))).
Proof.
  split.
  - pose proof (Graph_reaches_dom S G u v var_Undef (-1)) as Hdom.
    destruct (reach_lits G !! (u, v, -1)) as [l|] eqn:Hl.
    + rewrite (reaches_hit S G u v l Hl). cbv beta iota.
      rewrite (reaches_hit S G u v l Hl). cbv beta iota.
      unfold Graph_reaches in Hdom. rewrite Hl in Hdom.
      destruct Hdom as [Hh Hd].
      do 4 (split; [reflexivity|]). split; [exact Hh|]. split; [exact Hd|].
      split; [intros _; split; reflexivity|].
      intros Hf. apply hasReach_false in Hf. congruence.
    + destruct (reaches_miss_trace S G u v Hl) as (l & S2 & -> & Hline).
      cbv beta iota.
      rewrite (reaches_hit S2 _ u v l)
        by (cbn [reach_lits]; apply lookup_insert_eq).
      cbv beta iota. cbn [reach_lits].
      assert (Hnot : hasReach G u v (-1) = true -> False).
      { intros Ht. apply hasReach_true in Ht. rewrite Hl in Ht.
        destruct Ht as [x Hx]. discriminate Hx. }
      do 4 (split; [reflexivity|]). split; [|split; [|split]].
      * apply hasReach_true. cbn [reach_lits]. rewrite lookup_insert_eq.
        eauto.
      * rewrite dom_insert_L. apply union_comm_L.
      * intros Ht. destruct (Hnot Ht).
      * intros _. exact Hline.
  - intros steps Hsteps. cbv zeta.
    rewrite <- (distance_key steps Hsteps).
    set (k := int32 (steps - 1)).
    pose proof (Graph_reaches_dom S G u v var_Undef k) as Hdom.
    destruct (reach_lits G !! (u, v, k)) as [l|] eqn:Hl.
    + rewrite (distance_hit S G u v steps l Hl). cbv beta iota.
      rewrite (distance_hit S G u v steps l Hl). cbv beta iota.
      unfold Graph_reaches in Hdom. rewrite Hl in Hdom.
      destruct Hdom as [Hh Hd].
      do 3 (split; [reflexivity|]). split; [exact Hh|]. split; [exact Hd|].
      split; [intros _; split; reflexivity|].
      intros Hf. apply hasReach_false in Hf. congruence.
    + destruct (distance_miss S G u v steps Hl) as (l & S2 & -> & Hline).
      cbv beta iota.
      rewrite (distance_hit S2 _ u v steps l)
        by (cbn [reach_lits]; apply lookup_insert_eq).
      cbv beta iota. cbn [reach_lits].
      assert (Hnot : hasReach G u v k = true -> False).
      { intros Ht. apply hasReach_true in Ht. rewrite Hl in Ht.
        destruct Ht as [x Hx]. discriminate Hx. }
      do 3 (split; [reflexivity|]). split; [|split; [|split]].
      * apply hasReach_true. cbn [reach_lits]. rewrite lookup_insert_eq.
        eauto.
      * rewrite dom_insert_L. apply union_comm_L.
      * intros Ht. destruct (Hnot Ht).
      * intros _. exact Hline.
Qed.

Lemma reaches_hash_consed_witness :
  (let '(e1, S1, G1) :=
     shortestPathUnweighted_lt_const swapSolver (emptyGraph 0) 0 1 3 in
   let '(e2, S2, G2) := shortestPathUnweighted_lt_const S1 G1 0 1 3 in
   e2 = e1 /\ S2 = S1 /\ hasReach G1 0 1 2 = true)
  /\ (let '(_, _, G1) :=
        shortestPathUnweighted_lt_const swapSolver (emptyGraph 0) 0 1
          (- 2 ^ 31) in
      hasReach G1 0 1 (2 ^ 31 - 1) = true).
Proof.
  destruct (reaches_hash_consed swapSolver (emptyGraph 0) 0 1) as [_ H].
  split.
  - specialize (H 3). cbv zeta in H.
    destruct (shortestPathUnweighted_lt_const swapSolver (emptyGraph 0) 0 1 3)
      as [[e1 S1] G1].
    destruct (shortestPathUnweighted_lt_const S1 G1 0 1 3) as [[e2 S2] G2].
    destruct H as (He & HS & _ & Hh & _); [lia|].
    repeat split; assumption.
  - specialize (H (- 2 ^ 31)). cbv zeta in H.
    destruct (shortestPathUnweighted_lt_const swapSolver (emptyGraph 0) 0 1
                (- 2 ^ 31)) as [[e1 S1] G1].
    destruct (shortestPathUnweighted_lt_const S1 G1 0 1 (- 2 ^ 31))
      as [[e2 S2] G2].
    destruct H as (_ & _ & _ & Hh & _); [lia|].
    exact Hh.
Defined.

Example reaches_example :
  let '(e1, S1, G1) := reaches swapSolver (emptyGraph 0) 0 1 in
  let '(e2, S2, _) := reaches S1 G1 0 1 in
  let '(e3, S3, _) := shortestPathUnweighted_lt_const S1 G1 0 1 0 in
  e1 = 4 /\ e2 = 4 /\ e3 = 4
  /\ outfile S1 = Some [Some ("reach 0 0 1 3" ++ LF)%string]
  /\ outfile S2 = outfile S1 /\ outfile S3 = outfile S1.
Proof. vm_compute. repeat split. Qed.

(** ** Popcount arguments *)

Section PopcountFacts.

Variable S : SimpSolver.

Lemma popcount_vars_negative (args : list Z) (acc : list Var) :
  (exists a, In a args /\ Z.testbit a 0 = true) ->
  popcount_vars S args acc =
    Raise (api_errorf "Popcount arguments must all be positive literals" []).
Proof.
  revert acc. induction args as [|a args IH]; intros acc [x [Hin Hx]].
  - destruct Hin.
  - simpl. rewrite sign_internalLit.
    destruct (Z.testbit a 0) eqn:Ha; [reflexivity|].
    apply IH. destruct Hin as [->|Hin]; [congruence|eauto].
Qed.

Lemma popcount_vars_positive (args : list Z) (acc : list Var) :
  (forall a, In a args -> Z.testbit a 0 = false) ->
  popcount_vars S args acc =
    Return (acc ++ map (fun a => var (internalLit S a)) args).
Proof.
  revert acc. induction args as [|a args IH]; intros acc Hall.
  - simpl. now rewrite app_nil_r.
  - simpl. rewrite sign_internalLit, (Hall a) by (now left).
    rewrite IH by (intros x Hx; apply Hall; now right).
    now rewrite <- app_assoc.
Qed.

End PopcountFacts.

(** C7.  When some argument of [bv_popcount] has its sign bit set, the
    call raises an error and leaves solver and bitvector theory as they
    were: no popcount node is added.  When every argument is a positive
    literal, the call returns and a popcount node over the variables of
    the arguments is added for the result bitvector. *)
Theorem bv_popcount_sign_check (S : SimpSolver) (bv : BVTheorySolver)
  (args : list Z) (resultID : Z) :
  ((exists a, In a args /\ Z.testbit a 0 = true) ->
   bv_popcount S bv args resultID =
     (Raise (api_errorf "Popcount arguments must all be positive literals" []),
      S, bv))
  /\ ((forall a, In a args -> Z.testbit a 0 = false) ->
      exists S',
        bv_popcount S bv args resultID =
          (Return tt, S',
           newPopCountBV bv (internalBV bv resultID)
             (map (fun a => var (internalLit S a)) args))
        /\ bv_popcounts (snd (bv_popcount S bv args resultID)) =
             bv_popcounts bv ++
             [(internalBV bv resultID,
               map (fun a => var (internalLit S a)) args)]).
Proof.
  split; intros H; unfold bv_popcount.
  - now rewrite popcount_vars_negative.
  - rewrite popcount_vars_positive by assumption. cbn [app].
    eexists. split; reflexivity.
Qed.

Lemma bv_popcount_sign_check_witness :
  bv_popcount swapSolver exampleBV [0; 3] 1 =
    (Raise (api_errorf "Popcount arguments must all be positive literals" []),
     swapSolver, exampleBV)
  /\ bv_popcounts (snd (bv_popcount swapSolver exampleBV [0; 2] 1)) =
       [(1, [1; 0])].
Proof.
  split.
  - apply (proj1 (bv_popcount_sign_check swapSolver exampleBV [0; 3] 1)).
    exists 3. split; [simpl; tauto | reflexivity].
  - destruct (proj2 (bv_popcount_sign_check swapSolver exampleBV [0; 2] 1))
      as [S' [_ H]].
    + intros a [<-|[<-|[]]]; reflexivity.
    + exact H.
Defined.

(** ** Named variables *)

Section NamedVarFacts.

Lemma illegal_char_legal (c : ascii) :
  illegal_char c = negb (legal_name_char c).
Proof. destruct c as [[] [] [] [] [] [] [] []]; reflexivity. Qed.

Lemma existsb_illegal (name : string) :
  existsb illegal_char (list_of_string name) = true <->
  exists c, In c (list_of_string name) /\ legal_name_char c = false.
Proof.
  rewrite existsb_exists. split; intros [c [Hin Hc]]; exists c; split; auto.
  - rewrite illegal_char_legal in Hc. now apply negb_true_iff.
  - rewrite illegal_char_legal. now apply negb_true_iff.
Qed.

Lemma Solver_newVar_ok (S : SimpSolver) :
  varmap_ok S -> varmap_ok (snd (Solver_newVar S)).
Proof.
  intros [Hn Hf Hb]. unfold Solver_newVar. cbn [snd].
  unfold mapVar, unmapVar in *.
  split; cbn [n_vars var_map var_reverse_map set_n_vars set_maps].
  - rewrite length_app. cbn [length]. lia.
  - unfold mapVar, unmapVar;
      cbn [n_vars var_map var_reverse_map set_n_vars set_maps].
    intros e He Hdef.
    destruct (Z.eq_dec e (Z.of_nat (length (var_map S)))) as [->|Hne].
    + rewrite lookup_var_app_new. split; [lia|].
      rewrite <- Hn. apply lookup_var_app_new.
    + apply lookup_var_defined in Hdef as Hr.
      rewrite length_app in Hr. cbn [length] in Hr.
      rewrite lookup_var_app_l in * by lia.
      destruct (Hf e He Hdef) as [H0 Hback]. split; [exact H0|].
      rewrite lookup_var_app_l; [exact Hback|].
      assert (Hx : lookup_var (var_reverse_map S) (lookup_var (var_map S) e)
                   <> var_Undef) by (rewrite Hback; unfold var_Undef; lia).
      apply lookup_var_defined in Hx. lia.
  - unfold mapVar, unmapVar;
      cbn [n_vars var_map var_reverse_map set_n_vars set_maps].
    intros i Hi Hdef.
    destruct (Z.eq_dec i (Z.of_nat (length (var_reverse_map S)))) as [->|Hne].
    + rewrite lookup_var_app_new. split; [lia|].
      rewrite lookup_var_app_new. lia.
    + apply lookup_var_defined in Hdef as Hr.
      rewrite length_app in Hr. cbn [length] in Hr.
      rewrite lookup_var_app_l in * by lia.
      destruct (Hb i Hi Hdef) as [H0 Hback]. split; [exact H0|].
      rewrite lookup_var_app_l; [exact Hback|].
      assert (Hx : lookup_var (var_map S) (lookup_var (var_reverse_map S) i)
                   <> var_Undef) by (rewrite Hback; unfold var_Undef; lia).
      apply lookup_var_defined in Hx. lia.
Qed.

(** The variable that [newVar] returns is the next external variable; it
    was not allocated and it is mapped to the new internal variable. *)
Lemma newVar_fresh (S : SimpSolver) :
  varmap_ok S ->
  let '(v, S1) := newVar S in
  v = Z.of_nat (length (var_map S))
  /\ allocatedVar S v = false
  /\ mapVar S1 v = n_vars S
  /\ unmapVar S1 (n_vars S) = v
  /\ n_vars S1 = n_vars S + 1.
Proof.
  intros Hok. unfold newVar, Solver_newVar, externalVar, unmapVar, mapVar.
  cbn [n_vars var_map var_reverse_map set_n_vars set_maps].
  rewrite <- (vm_n_vars S Hok).
  rewrite !lookup_var_app_new.
  repeat split.
  unfold allocatedVar, mapVar. rewrite lookup_var_outside by lia.
  change (var_Undef =? var_Undef) with true.
  now rewrite andb_false_r.
Qed.

End NamedVarFacts.

Lemma setVariableName_fields (S : SimpSolver) (v : Z) (buf : string) :
  0 < strlen buf ->
  let S' := setVariableName S v (Some buf) in
  var_map S' = var_map S /\ var_reverse_map S' = var_reverse_map S
  /\ n_vars S' = n_vars S
  /\ var_names S' = <[c_str buf := internalVar S v]> (var_names S).
Proof.
  intros Hlen. unfold setVariableName, Solver_setVariableName.
  assert (Hne : String.eqb (c_str buf) EmptyString = false).
  { unfold strlen in Hlen. destruct (c_str buf); [simpl in Hlen; lia|reflexivity]. }
  rewrite Hne. cbv zeta.
  match goal with
  | |- context [write_out ?T ?f ?a] =>
      destruct (write_out_maps T f a) as (-> & -> & ->);
      unfold write_out; destruct (outfile T)
  end; repeat split; reflexivity.
Qed.

(** C6.  For a non-empty name: when the name is in use, or has a
    character that is not printable non-whitespace ASCII, [newNamedVar]
    throws and the solver is unchanged (no variable is allocated);
    otherwise a fresh variable is allocated and the name is bound to it.
    For a null or an empty name the call is [newVar]. *)
Theorem newNamedVar_cases (S : SimpSolver) (buf : string) :
  (0 < strlen buf ->
   ((hasVariable S (c_str buf) = true
     \/ (exists c, In c (list_of_string (c_str buf))
                   /\ legal_name_char c = false)) ->
    exists e, newNamedVar S (Some buf) = (Raise e, S))
   /\ (hasVariable S (c_str buf) = false ->
       (forall c, In c (list_of_string (c_str buf)) ->
                  legal_name_char c = true) ->
       varmap_ok S ->
       exists v S',
         newNamedVar S (Some buf) = (Return v, S')
         /\ allocatedVar S v = false
         /\ allocatedVar S' v = true
         /\ n_vars S' = n_vars S + 1
         /\ hasVariable S' (c_str buf) = true
         /\ getVariable S' buf = v))
  /\ (strlen buf = 0 ->
      newNamedVar S (Some buf) = (Return (fst (newVar S)), snd (newVar S)))
  /\ newNamedVar S None = (Return (fst (newVar S)), snd (newVar S)).
Proof.
  split; [|split].
  - intros Hlen. unfold newNamedVar.
    assert (Hl : (0 <? strlen buf) = true) by now apply Z.ltb_lt.
    rewrite Hl. split.
    + intros [Hdup | Hbad].
      * rewrite Hdup. eauto.
      * destruct (hasVariable S (c_str buf)); [eauto|].
        apply existsb_illegal in Hbad. rewrite Hbad. eauto.
    + intros Hnew Hlegal Hok. rewrite Hnew.
      assert (Hex : existsb illegal_char (list_of_string (c_str buf)) = false).
      { apply not_true_is_false. intros Hbad.
        apply existsb_illegal in Hbad as [c [Hin Hc]].
        rewrite (Hlegal c Hin) in Hc. discriminate. }
      rewrite Hex.
      pose proof (newVar_fresh S Hok) as Hfresh.
      destruct (newVar S) as [v S1].
      destruct Hfresh as (Hv & Hfree & Hmap & Hunmap & Hn).
      destruct (setVariableName_fields S1 v buf Hlen) as (Hm & Hr & Hnv & Hnames).
      exists v, (setVariableName S1 v (Some buf)).
      pose proof (vm_n_vars S Hok) as Hlenr.
      repeat split.
      * exact Hfree.
      * apply allocatedVar_spec. unfold mapVar in *. rewrite Hm.
        split; [lia|]. rewrite Hmap. unfold var_Undef. lia.
      * lia.
      * unfold hasVariable. apply bool_decide_eq_true.
        rewrite Hnames, lookup_insert_eq. eauto.
      * unfold getVariable, Solver_getVariable, externalVar, unmapVar.
        rewrite Hnames, lookup_insert_eq, Hr. cbn [default].
        unfold internalVar. rewrite Hmap. exact Hunmap.
  - intros Hlen. unfold newNamedVar. rewrite Hlen.
    change (0 <? 0) with false. cbv iota. now destruct (newVar S).
  - unfold newNamedVar. now destruct (newVar S).
Qed.

Lemma newNamedVar_cases_witness :
  (exists e, newNamedVar namedSolver (Some "x"%string) = (Raise e, namedSolver))
  /\ (exists e, newNamedVar swapSolver (Some "a b"%string)
                = (Raise e, swapSolver))
  /\ (exists v S',
        newNamedVar swapSolver (Some "x"%string) = (Return v, S')
        /\ allocatedVar swapSolver v = false
        /\ allocatedVar S' v = true
        /\ n_vars S' = n_vars swapSolver + 1
        /\ hasVariable S' (c_str "x") = true
        /\ getVariable S' "x" = v).
Proof.
  split; [|split].
  - apply (proj1 (proj1 (newNamedVar_cases namedSolver "x") eq_refl)).
    left. vm_compute. reflexivity.
  - apply (proj1 (proj1 (newNamedVar_cases swapSolver "a b") eq_refl)).
    right. exists " "%char. split; [simpl; tauto | reflexivity].
  - apply (proj2 (proj1 (newNamedVar_cases swapSolver "x") eq_refl)).
    + vm_compute. reflexivity.
    + intros c [<-|[]]. reflexivity.
    + apply varmap_okb_sound. reflexivity.
Defined.

Example newNamedVar_example :
  fst (newNamedVar swapSolver (Some "x"%string)) = Return 2
  /\ outfile namedSolver = Some [Some ("symbol 3 x" ++ LF)%string]
  /\ getVariable namedSolver "x" = 2.
Proof. vm_compute. repeat split. Qed.

(** ** Bitvector equality *)

Section BVEqFacts.

Lemma toLit_toInt (l : Lit) : toLit (toInt l) = l.
Proof. now destruct l. Qed.

Lemma toInt_toLit (e : Z) : toInt (toLit e) = e.
Proof. reflexivity. Qed.


Lemma bit_fold_maps (bv : BVTheorySolver) (c : Lit)
  (bits : list (Lit * Lit)) (S : SimpSolver) :
  let S' := fold_left (add_bit_equality bv c) bits S in
  var_map S' = var_map S /\ var_reverse_map S' = var_reverse_map S
  /\ n_vars S' = n_vars S
  /\ clauses S' =
       clauses S ++
       flat_map (fun p =>
                   [[toSolver bv (fst p); lit_neg (toSolver bv (snd p));
                     lit_neg c];
                    [lit_neg (toSolver bv (fst p)); toSolver bv (snd p);
                     lit_neg c]]) bits.
Proof.
  revert S. induction bits as [|p bits IH]; intros S; cbn [fold_left flat_map].
  - now rewrite app_nil_r.
  - destruct (IH (add_bit_equality bv c S p)) as (-> & -> & -> & ->).
    unfold add_bit_equality, addClause; cbn.
    repeat split. now rewrite <- !app_assoc.
Qed.

Lemma lookup_var_mid (m rest : list Var) (x : Var) :
  lookup_var (m ++ x :: rest) (Z.of_nat (length m)) = x.
Proof.
  change (x :: rest) with ([x] ++ rest). rewrite app_assoc.
  rewrite lookup_var_app_l by (rewrite length_app; cbn [length]; lia).
  apply lookup_var_app_new.
Qed.

Lemma internalLit_mid (S' : SimpSolver) (m rest : list Var) (n e : Z) :
  var_map S' = m ++ n :: rest -> e = Z.of_nat (length m) ->
  internalLit S' (toInt (mkLit e false)) = mkLit n false.
Proof.
  intros Hm ->. unfold internalLit, mapLit, mapVar.
  rewrite toLit_toInt, var_mkLit, sign_mkLit, Hm.
  now rewrite lookup_var_mid.
Qed.

Lemma externalLit_mid (S' : SimpSolver) (r rest : list Var) (e n : Z) :
  var_reverse_map S' = r ++ e :: rest -> n = Z.of_nat (length r) ->
  externalLit S' (mkLit n false) = toInt (mkLit e false).
Proof.
  intros Hr ->. unfold externalLit, unmap, unmapVar.
  rewrite var_mkLit, sign_mkLit, Hr. now rewrite lookup_var_mid.
Qed.

Lemma toSolver_mid (bv : BVTheorySolver) (m rest : list Var) (x : Var) :
  bv_vars bv = m ++ x :: rest ->
  toSolver bv (mkLit (Z.of_nat (length m)) false) = mkLit x false.
Proof.
  intros Hv. unfold toSolver.
  now rewrite var_mkLit, sign_mkLit, Hv, lookup_var_mid.
Qed.

Lemma write_out_clauses (S : SimpSolver) fmt args :
  clauses (write_out S fmt args) = clauses S.
Proof. unfold write_out. now destruct (outfile S). Qed.

(** Posting a comparison: the literal sits on the next theory variable,
    backed by the next internal variable, which the var-map layer hands
    out as the next external variable; nothing else changes. *)
Lemma newComparisonBV_fields (S : SimpSolver) (bv : BVTheorySolver)
  (op : Comparison.t) (x y : Z) :
  exists S1 bv1,
    newComparisonBV S bv op x y =
      (mkLit (Z.of_nat (length (bv_vars bv))) false, S1, bv1)
    /\ var_map S1 = var_map S ++ [n_vars S]
    /\ var_reverse_map S1 =
         var_reverse_map S ++ [Z.of_nat (length (var_map S))]
    /\ n_vars S1 = n_vars S + 1
    /\ clauses S1 = clauses S
    /\ bv_vars bv1 = bv_vars bv ++ [n_vars S]
    /\ bv_comparisons bv1 =
         bv_comparisons bv ++
         [(op, x, y, mkLit (Z.of_nat (length (bv_vars bv))) false)]
    /\ bv_bits bv1 = bv_bits bv
    /\ bv_remap bv1 = bv_remap bv.
Proof.
  unfold newComparisonBV, Solver_newVar. eexists _, _.
  split; [reflexivity|]. cbn. repeat split.
Qed.

(** The shape shared by the comparison wrappers: post the comparison,
    trace it, return the external literal. *)
Lemma comparison_wrapper (S : SimpSolver) (bv : BVTheorySolver)
  (op : Comparison.t) (bvID compareID : Z) (fmt : string) :
  Z.of_nat (length (var_reverse_map S)) = n_vars S ->
  exists S1 bv1,
    (let '(t, S1, bv1) :=
       newComparisonBV S bv op (internalBV bv bvID) compareID in
     let l := toSolver bv1 t in
     let S2 := write_out S1 fmt
                 [va_int (dimacs_lit S1 l); va_int bvID; va_int compareID] in
     (externalLit S2 l, S2, bv1)) =
      (toInt (mkLit (Z.of_nat (length (var_map S))) false), S1, bv1)
    /\ var_map S1 = var_map S ++ [n_vars S]
    /\ var_reverse_map S1 =
         var_reverse_map S ++ [Z.of_nat (length (var_map S))]
    /\ n_vars S1 = n_vars S + 1
    /\ clauses S1 = clauses S
    /\ bv_vars bv1 = bv_vars bv ++ [n_vars S]
    /\ bv_comparisons bv1 =
         bv_comparisons bv ++
         [(op, internalBV bv bvID, compareID,
           mkLit (Z.of_nat (length (bv_vars bv))) false)]
    /\ bv_bits bv1 = bv_bits bv
    /\ bv_remap bv1 = bv_remap bv.
Proof.
  intros Hn.
  destruct (newComparisonBV_fields S bv op (internalBV bv bvID) compareID)
    as (S1 & bv1 & -> & Hm & Hr & Hnv & Hc & Hv & Hcmp & Hb & Hre).
  cbv beta iota zeta.
  rewrite externalLit_write_out.
  rewrite (toSolver_mid bv1 (bv_vars bv) [] (n_vars S) Hv).
  rewrite (externalLit_mid S1 _ [] _ _ Hr (eq_sym Hn)).
  match goal with
  | |- context [write_out S1 ?f ?x] =>
      pose proof (write_out_maps S1 f x) as (Hwm & Hwr & Hwn);
      pose proof (write_out_clauses S1 f x) as Hwc;
      exists (write_out S1 f x), bv1
  end.
  rewrite Hwm, Hwr, Hwn, Hwc.
  repeat split; assumption.
Qed.

Lemma newBVComparison_bv_geq_fields (S : SimpSolver) (bv : BVTheorySolver)
  (bvID compareID : Z) :
  Z.of_nat (length (var_reverse_map S)) = n_vars S ->
  exists S1 bv1,
    newBVComparison_bv_geq S bv bvID compareID =
      (toInt (mkLit (Z.of_nat (length (var_map S))) false), S1, bv1)
    /\ var_map S1 = var_map S ++ [n_vars S]
    /\ var_reverse_map S1 =
         var_reverse_map S ++ [Z.of_nat (length (var_map S))]
    /\ n_vars S1 = n_vars S + 1
    /\ clauses S1 = clauses S
    /\ bv_vars bv1 = bv_vars bv ++ [n_vars S]
    /\ bv_comparisons bv1 =
         bv_comparisons bv ++
         [(Comparison.geq, internalBV bv bvID, compareID,
           mkLit (Z.of_nat (length (bv_vars bv))) false)]
    /\ bv_bits bv1 = bv_bits bv
    /\ bv_remap bv1 = bv_remap bv.
Proof.
  intros Hn.
  exact (comparison_wrapper S bv Comparison.geq bvID compareID _ Hn).
Qed.

Lemma newBVComparison_bv_gt_fields (S : SimpSolver) (bv : BVTheorySolver)
  (bvID compareID : Z) :
  Z.of_nat (length (var_reverse_map S)) = n_vars S ->
  exists S1 bv1,
    newBVComparison_bv_gt S bv bvID compareID =
      (toInt (mkLit (Z.of_nat (length (var_map S))) false), S1, bv1)
    /\ var_map S1 = var_map S ++ [n_vars S]
    /\ var_reverse_map S1 =
         var_reverse_map S ++ [Z.of_nat (length (var_map S))]
    /\ n_vars S1 = n_vars S + 1
    /\ clauses S1 = clauses S
    /\ bv_vars bv1 = bv_vars bv ++ [n_vars S]
    /\ bv_comparisons bv1 =
         bv_comparisons bv ++
         [(Comparison.gt, internalBV bv bvID, compareID,
           mkLit (Z.of_nat (length (bv_vars bv))) false)]
    /\ bv_bits bv1 = bv_bits bv
    /\ bv_remap bv1 = bv_remap bv.
Proof.
  intros Hn.
  exact (comparison_wrapper S bv Comparison.gt bvID compareID _ Hn).
Qed.


End BVEqFacts.


(** The equality in closed form: the three literals sit on three new
    consecutive variables, two comparisons are posted, and the clauses
    are appended to the posted clauses. *)
Lemma newBVComparison_bv_eq_fields (S : SimpSolver) (bv : BVTheorySolver)
  (bvID compareID : Z) :
  Z.of_nat (length (var_reverse_map S)) = n_vars S ->
  let n := n_vars S in
  let e0 := Z.of_nat (length (var_map S)) in
  let a := mkLit n false in
  let b := mkLit (n + 1) false in
  let c := mkLit (n + 2) false in
  exists S1 bv1 S2 bv2 S',
    newBVComparison_bv_geq S bv bvID compareID =
      (toInt (mkLit e0 false), S1, bv1)
    /\ newBVComparison_bv_gt S1 bv1 bvID compareID =
         (toInt (mkLit (e0 + 1) false), S2, bv2)
    /\ newBVComparison_bv_eq S bv bvID compareID =
         (toInt (mkLit (e0 + 2) false), S', bv2)
    /\ var_map S' = var_map S ++ [n; n + 1; n + 2]
    /\ clauses S' =
         clauses S ++
         [[a; lit_neg c]; [lit_neg b; lit_neg c]; [c; lit_neg a; b]] ++
         (if (length (getBits bv2 (internalBV bv2 bvID)) =?
              length (getBits bv2 (internalBV bv2 compareID)))%nat
          then bit_equality_clauses bv2 c
                 (getBits bv2 (internalBV bv2 bvID))
                 (getBits bv2 (internalBV bv2 compareID))
          else [])
    /\ bv_vars bv2 = bv_vars bv ++ [n; n + 1]
    /\ bv_comparisons bv2 =
         bv_comparisons bv ++
         [(Comparison.geq, internalBV bv bvID, compareID,
           mkLit (Z.of_nat (length (bv_vars bv))) false);
          (Comparison.gt, internalBV bv bvID, compareID,
           mkLit (Z.of_nat (length (bv_vars bv)) + 1) false)].
Proof.
  intros Hn n e0 a b c.
  unfold newBVComparison_bv_eq.
  destruct (newBVComparison_bv_geq_fields S bv bvID compareID Hn)
    as (S1 & bv1 & Hgeq & Hm1 & Hr1 & Hn1 & Hc1 & Hv1 & Hcmp1 & Hb1 & Hre1).
  assert (Hn' : Z.of_nat (length (var_reverse_map S1)) = n_vars S1)
    by (rewrite Hr1, Hn1, length_app; cbn [length]; lia).
  destruct (newBVComparison_bv_gt_fields S1 bv1 bvID compareID Hn')
    as (S2 & bv2 & Hgt & Hm2 & Hr2 & Hn2 & Hc2 & Hv2 & Hcmp2 & Hb2 & Hre2).
  assert (He1 : Z.of_nat (length (var_map S1)) = e0 + 1)
    by (rewrite Hm1, length_app; cbn [length]; subst e0; lia).
  rewrite He1 in Hgt. fold e0 in Hgeq.
  exists S1, bv1, S2, bv2.
  rewrite Hgeq. cbv beta iota zeta. rewrite Hgt.
  cbv beta iota zeta. unfold Solver_newVar.
  rewrite (internalLit_mid S1 (var_map S) [] n e0 Hm1 eq_refl).
  rewrite (internalLit_mid S2 (var_map S1) [] (n_vars S1) (e0 + 1) Hm2
             (eq_sym He1)).
  rewrite Hn2, Hn1. fold n. replace (n + 1 + 1) with (n + 2) by lia.
  fold a b c.
  match goal with
  | |- context [addClause (addClause (addClause ?T _) _) _] =>
      set (S3 := T)
  end.
  set (S6 := addClause (addClause (addClause S3 [a; lit_neg c])
                          [lit_neg b; lit_neg c]) [c; lit_neg a; b]).
  set (bits1 := getBits bv2 (internalBV bv2 bvID)).
  set (bits2 := getBits bv2 (internalBV bv2 compareID)).
  set (S7 := if (length bits1 =? length bits2)%nat
             then fold_left (add_bit_equality bv2 c) (combine bits1 bits2) S6
             else S6).
  assert (H7 : var_map S7 = var_map S2 ++ [n + 2]
               /\ var_reverse_map S7 =
                    var_reverse_map S2 ++ [Z.of_nat (length (var_map S2))]
               /\ clauses S7 =
                    clauses S2 ++
                    [[a; lit_neg c]; [lit_neg b; lit_neg c]; [c; lit_neg a; b]] ++
                    (if (length bits1 =? length bits2)%nat
                     then bit_equality_clauses bv2 c bits1 bits2 else [])).
  { subst S7. destruct (length bits1 =? length bits2)%nat.
    - destruct (bit_fold_maps bv2 c (combine bits1 bits2) S6)
        as (-> & -> & _ & ->).
      subst S6 S3. unfold addClause; cbn.
      repeat split. unfold bit_equality_clauses.
      now rewrite <- !app_assoc.
    - subst S6 S3. unfold addClause; cbn.
      repeat split. now rewrite <- !app_assoc. }
  destruct H7 as (Hm7 & Hr7 & Hc7).
  exists S7. repeat split.
  - f_equal. f_equal.
    assert (He2 : Z.of_nat (length (var_map S2)) = e0 + 2)
      by (rewrite Hm2, length_app; cbn [length]; lia).
    rewrite He2 in Hr7.
    apply (externalLit_mid S7 (var_reverse_map S2) [] (e0 + 2) (n + 2) Hr7).
    rewrite Hr2, Hr1, !length_app. cbn [length]. subst n. lia.
  - rewrite Hm7, Hm2, Hm1, Hn1. fold n. now rewrite <- !app_assoc.
  - rewrite Hc7, Hc2, Hc1. reflexivity.
  - rewrite Hv2, Hv1, Hn1. fold n. now rewrite <- app_assoc.
  - rewrite Hcmp2, Hcmp1, Hv1, length_app. cbn [length].
    rewrite <- app_assoc. cbn [app].
    unfold internalBV, mapBV. rewrite Hre1.
    repeat f_equal. lia.
Qed.



Section BVEqSemantics.







End BVEqSemantics.



(** ** Unsat-core minimisation *)

Section MinimizeFacts.

Variable solve_under : list Lit -> lbool.

Lemma shrink_core_spec (kept todo : list Lit) :
  exists t',
    shrink_core solve_under kept todo = kept ++ t'
    /\ (length t' <= length todo)%nat
    /\ (forall x, In x t' -> In x todo).
Proof.
  revert kept. induction todo as [|l rest IH]; intros kept; cbn [shrink_core].
  - exists []. rewrite app_nil_r. repeat split; auto.
  - assert (Hdrop : exists t',
               shrink_core solve_under kept rest = kept ++ t'
               /\ (length t' <= length (l :: rest))%nat
               /\ (forall x, In x t' -> In x (l :: rest))).
    { destruct (IH kept) as (t' & -> & Hlen & Hin).
      exists t'. repeat split; [cbn [length]; lia | intros x Hx; right; auto]. }
    assert (Hkeep : exists t',
               shrink_core solve_under (kept ++ [l]) rest = kept ++ t'
               /\ (length t' <= length (l :: rest))%nat
               /\ (forall x, In x t' -> In x (l :: rest))).
    { destruct (IH (kept ++ [l])) as (t' & -> & Hlen & Hin).
      exists (l :: t'). rewrite <- app_assoc.
      repeat split; [cbn [length]; lia|].
      intros x [->|Hx]; [now left | right; auto]. }
    destruct (solve_under (kept ++ rest)); assumption.
Qed.

Lemma minimizeCore_spec (assumptions : list Lit) :
  let core := snd (minimizeCore solve_under assumptions) in
  (length core <= length assumptions)%nat
  /\ (forall x, In x core -> In x assumptions).
Proof.
  unfold minimizeCore.
  destruct (solve_under assumptions); cbn [snd]; try (split; [lia | auto]).
  destruct (shrink_core_spec [] assumptions) as (t' & -> & Hlen & Hin).
  cbn [app]. split; assumption.
Qed.

End MinimizeFacts.

Section CoreArrayFacts.

Lemma push_assumptions_spec (arr : list Z) (S : SimpSolver) (acc : list Lit) :
  let st := fold_left push_assumption arr (S, acc) in
  var_map (fst st) = var_map S
  /\ var_reverse_map (fst st) = var_reverse_map S
  /\ snd st = acc ++ map (internalLit S) arr.
Proof.
  revert S acc. induction arr as [|e arr IH]; intros S acc;
    cbv zeta; cbn [fold_left map].
  - cbn [fst snd]. now rewrite app_nil_r.
  - unfold push_assumption at 2 4 6. cbn [fst snd].
    match goal with
    | |- context [write_out S ?f ?x] =>
        destruct (write_out_maps S f x) as (Hm & Hr & _);
        destruct (IH (write_out S f x) (acc ++ [internalLit S e]))
          as (H1 & H2 & H3)
    end.
    rewrite H1, H2, H3.
    repeat split; try assumption.
    rewrite <- app_assoc. cbn [app]. do 2 f_equal.
    apply map_ext. intros z. apply internalLit_write_out.
Qed.

Lemma store_core_spec (S : SimpSolver) (core : list Lit) (arr : list Z)
  (i : nat) :
  (i + length core <= length arr)%nat ->
  store_core S i core arr =
    take i arr ++ map (externalLit S) core ++ drop (i + length core) arr.
Proof.
  revert arr i. induction core as [|l core IH]; intros arr i Hlen;
    cbn [store_core map length app].
  - rewrite Nat.add_0_r. now rewrite take_drop.
  - cbn [length] in Hlen.
    rewrite IH by (rewrite length_insert; lia).
    rewrite (take_S_r _ _ (externalLit S l))
      by (apply list_lookup_insert_eq; lia).
    rewrite take_insert_ge by lia.
    rewrite drop_insert_lt by lia.
    rewrite <- app_assoc. cbn [app].
    replace (Datatypes.S i + length core)%nat
      with (i + Datatypes.S (length core))%nat by lia.
    reflexivity.
Qed.

Lemma LSet_fold_In (ls acc : list Lit) (x : Lit) :
  In x (fold_left LSet_insert ls acc) <-> In x acc \/ In x ls.
Proof.
  revert acc. induction ls as [|l ls IH]; intros acc; cbn [fold_left].
  - cbn. tauto.
  - rewrite IH. unfold LSet_insert.
    destruct (bool_decide (l ∈ acc)) eqn:Hd.
    + apply bool_decide_eq_true in Hd. apply list_elem_of_In in Hd.
      cbn [In]. split; [tauto|]. intros [H|[<-|H]]; auto.
    + rewrite in_app_iff. cbn [In]. tauto.
Qed.

End CoreArrayFacts.

Lemma internalLit_same_map (S S' : SimpSolver) (e : Z) :
  var_map S' = var_map S -> internalLit S' e = internalLit S e.
Proof. unfold internalLit, mapLit, mapVar. now intros ->. Qed.

Lemma externalLit_same_map (S S' : SimpSolver) (l : Lit) :
  var_reverse_map S' = var_reverse_map S -> externalLit S' l = externalLit S l.
Proof. unfold externalLit, unmap, unmapVar. now intros ->. Qed.

(** C1.  For a solver whose var-map is a bijection and input assumptions
    that are allocated external literals: the count that
    [minimizeUnsatCore] returns is at most [n_lits] (the length of the
    array), the first [count] entries of the array after the call are
    among the input assumptions, and when the verdict of the minimisation
    is not SAT the conflict of the solver holds exactly the negations of
    the returned literals. *)
Theorem minimizeUnsatCore_core (solve_under : list Lit -> lbool)
  (S : SimpSolver) (unsat_assumptions : list Z) :
  varmap_ok S ->
  (forall e, In e unsat_assumptions -> allocatedLit S e = true) ->
  let '(count, arr', S') :=
    minimizeUnsatCore solve_under S unsat_assumptions in
  let returned := take (Z.to_nat count) arr' in
  0 <= count <= Z.of_nat (length unsat_assumptions)
  /\ length arr' = length unsat_assumptions
  /\ (forall e, In e returned -> In e unsat_assumptions)
  /\ (fst (minimizeCore solve_under
             (map (internalLit S) unsat_assumptions)) <> l_True ->
      has_conflict_clause_from_last_solution S' = true
      /\ forall l : Lit,
           In l (conflict S') <->
           exists e, In e returned /\ l = lit_neg (internalLit S' e)).
Proof.
  intros Hok Hall. unfold minimizeUnsatCore.
  set (S3 := write_out _ "minimize_core " []).
  assert (Hm3 : var_map S3 = var_map S /\ var_reverse_map S3 = var_reverse_map S).
  { subst S3.
    match goal with
    | |- context [write_out ?T ?f ?x] =>
        destruct (write_out_maps T f x) as (-> & -> & _)
    end. split; reflexivity. }
  destruct Hm3 as [Hm3 Hr3].
  pose proof (push_assumptions_spec unsat_assumptions S3 []) as Hpush.
  destruct (fold_left push_assumption unsat_assumptions (S3, []))
    as [S4 assumptions].
  cbv zeta in Hpush. cbn [fst snd app] in Hpush.
  destruct Hpush as (Hm4 & Hr4 & ->).
  assert (Hint : map (internalLit S3) unsat_assumptions
                 = map (internalLit S) unsat_assumptions)
    by (apply map_ext; intros z; now apply internalLit_same_map).
  rewrite Hint. clear Hint.
  set (S5 := write_out S4 LF []).
  assert (Hm5 : var_map S5 = var_map S /\ var_reverse_map S5 = var_reverse_map S).
  { subst S5. destruct (write_out_maps S4 LF []) as (-> & -> & _).
    split; congruence. }
  destruct Hm5 as [Hm5 Hr5].
  set (inputs := map (internalLit S) unsat_assumptions).
  pose proof (minimizeCore_spec solve_under inputs) as [Hlen Hsub].
  destruct (minimizeCore solve_under inputs) as [r core].
  cbn [fst snd] in *.
  assert (Hlen' : (length core <= length unsat_assumptions)%nat)
    by (subst inputs; rewrite length_map in Hlen; exact Hlen).
  rewrite (store_core_spec S5 core unsat_assumptions 0) by (cbn; lia).
  rewrite take_0. cbn [app Nat.add]. rewrite Nat2Z.id.
  rewrite (take_app_length' (map (externalLit S5) core))
    by (now rewrite length_map).
  assert (Hround : forall x, In x core ->
            exists e, In e unsat_assumptions /\ x = internalLit S e
                      /\ externalLit S5 x = e).
  { intros x Hx. apply Hsub in Hx. subst inputs.
    apply in_map_iff in Hx as (e & <- & He).
    exists e. repeat split; [exact He|].
    rewrite (externalLit_same_map S S5) by exact Hr5.
    unfold externalLit, internalLit.
    rewrite unmap_mapLit; [apply toInt_toLit | exact Hok | now apply Hall]. }
  repeat split.
  - lia.
  - lia.
  - rewrite length_app, length_map, length_drop. lia.
  - intros e He. apply in_map_iff in He as (x & <- & Hx).
    destruct (Hround x Hx) as (e & He & _ & ->). exact He.
  - destruct r; [congruence| |]; reflexivity.
  - intros Hl. assert (Hr : negb (bool_decide (r = l_True)) = true)
      by (destruct r; [congruence| |]; reflexivity).
    rewrite Hr in Hl. cbn [conflict set_conflict] in Hl.
    apply LSet_fold_In in Hl as [[]|Hl].
    apply in_map_iff in Hl as (x & <- & Hx).
    destruct (Hround x Hx) as (e & He & Hxe & Hext).
    exists e. split.
    + apply in_map_iff. exists x. split; assumption.
    + f_equal. rewrite Hxe. symmetry. apply internalLit_same_map.
      rewrite Hr. cbn. exact Hm5.
  - intros (e & He & ->).
    assert (Hr : negb (bool_decide (r = l_True)) = true)
      by (destruct r; [congruence| |]; reflexivity).
    rewrite Hr. cbn [conflict set_conflict].
    apply LSet_fold_In. right.
    apply in_map_iff in He as (x & <- & Hx).
    destruct (Hround x Hx) as (e & He & Hxe & Hext).
    apply in_map_iff. exists x. split; [|exact Hx].
    f_equal. rewrite Hext, Hxe. symmetry. apply internalLit_same_map.
    cbn. exact Hm5.
Qed.

Lemma minimizeUnsatCore_core_witness :
  let '(count, arr', S') :=
    minimizeUnsatCore scenario_oracle fourVarSolver [0; 2; 4] in
  count = 2 /\ arr' = [0; 4; 4]
  /\ conflict S' = [mkLit 0 true; mkLit 2 true]
  /\ (forall e, In e (take (Z.to_nat count) arr') -> In e [0; 2; 4])
  /\ (forall l : Lit,
         In l (conflict S') <->
         exists e, In e (take (Z.to_nat count) arr')
                   /\ l = lit_neg (internalLit S' e)).
Proof.
  pose proof (minimizeUnsatCore_core scenario_oracle fourVarSolver [0; 2; 4]
                (varmap_okb_sound fourVarSolver eq_refl)) as H.
  destruct (minimizeUnsatCore scenario_oracle fourVarSolver [0; 2; 4])
    as [[count arr'] S'] eqn:E.
  destruct H as (_ & _ & Hsub & Hconf).
  { intros e [<-|[<-|[<-|[]]]]; reflexivity. }
  destruct Hconf as [_ Hconf]; [vm_compute; discriminate|].
  vm_compute in E. injection E as <- <- <-.
  repeat split; first [reflexivity | exact Hsub | apply Hconf].
Defined.

(** ** DIMACS numbers of literals *)

Section DimacsFacts.

Lemma literal_parts (e : Z) : e = 2 * (e / 2) + Z.b2z (Z.testbit e 0).
Proof.
  rewrite Z.bit0_odd.
  pose proof (Z.div_mod e 2 ltac:(lia)) as H.
  rewrite Zmod_odd in H. destruct (Z.odd e); simpl Z.b2z; lia.
Qed.

Lemma dimacs_parts (e : Z) :
  dimacs e = if Z.testbit e 0 then - (e / 2 + 1) else e / 2 + 1.
Proof.
  unfold dimacs, sign, var, toLit; cbn [lit_x].
  rewrite Z.shiftr_div_pow2 by lia. reflexivity.
Qed.

Lemma half_nonneg (e : Z) : 0 <= e -> 0 <= e / 2.
Proof. intros He. apply Z.div_pos; lia. Qed.

End DimacsFacts.

(** X1.  The DIMACS number of a non-negative external literal is never 0
    (the clause terminator of the trace), and it is negative exactly when
    the sign bit of the literal is set. *)
Theorem dimacs_nonzero_sign (e : Z) :
  0 <= e ->
  dimacs e <> 0 /\ (dimacs e < 0 <-> Z.testbit e 0 = true).
Proof.
  intros He. rewrite dimacs_parts. pose proof (half_nonneg e He).
  destruct (Z.testbit e 0); split; try lia; split; intros; try lia;
    try reflexivity; discriminate.
Qed.

Lemma dimacs_nonzero_sign_witness :
  0 <= 5 /\ dimacs 5 <> 0 /\ (dimacs 5 < 0 <-> Z.testbit 5 0 = true).
Proof. split; [lia|]. apply (dimacs_nonzero_sign 5). lia. Defined.

(** X2.  Two non-negative external literals with the same DIMACS number
    are the same literal. *)
Theorem dimacs_injective (e1 e2 : Z) :
  0 <= e1 -> 0 <= e2 -> dimacs e1 = dimacs e2 -> e1 = e2.
Proof.
  intros H1 H2. rewrite !dimacs_parts.
  pose proof (half_nonneg e1 H1). pose proof (half_nonneg e2 H2).
  pose proof (literal_parts e1) as P1. pose proof (literal_parts e2) as P2.
  destruct (Z.testbit e1 0), (Z.testbit e2 0); simpl Z.b2z in *; lia.
Qed.

Lemma dimacs_injective_witness :
  dimacs 6 = dimacs (varToLit 3 false) /\ 6 = varToLit 3 false.
Proof.
  split; [reflexivity|].
  apply (dimacs_injective 6 (varToLit 3 false)); [lia | vm_compute; congruence | reflexivity].
Defined.

(** X3.  Flipping the low bit of an external literal, which negates the
    literal, negates its DIMACS number. *)
Theorem dimacs_negation (e : Z) : dimacs (Z.lxor e 1) = - dimacs e.
Proof.
  unfold dimacs.
  change (toLit (Z.lxor e 1)) with (lit_neg (toLit e)).
  rewrite var_lit_neg, sign_lit_neg.
  destruct (sign (toLit e)); cbn [negb]; lia.
Qed.

(** X4.  For an allocated external literal of a solver whose var-map is
    a bijection, the DIMACS number that the trace functions write for the
    internal literal is the DIMACS number of the external literal. *)
Theorem dimacs_lit_internalLit (S : SimpSolver) (e : Z) :
  varmap_ok S -> allocatedLit S e = true ->
  dimacs_lit S (internalLit S e) = dimacs e.
Proof.
  intros Hok Hal. unfold dimacs_lit, dimacs, internalLit.
  rewrite unmap_mapLit by assumption. reflexivity.
Qed.

Lemma dimacs_lit_internalLit_witness :
  varmap_okb swapSolver = true /\ allocatedLit swapSolver 3 = true
  /\ dimacs_lit swapSolver (internalLit swapSolver 3) = dimacs 3.
Proof.
  split; [reflexivity|]. split; [reflexivity|].
  apply (dimacs_lit_internalLit swapSolver 3).
  - apply varmap_okb_sound. reflexivity.
  - reflexivity.
Defined.

(** X5.  For an internal literal whose variable the var-map hands out,
    [internalLit S (externalLit S l) = l]. *)
Theorem internalLit_externalLit (S : SimpSolver) (l : Lit) :
  varmap_ok S -> 0 <= var l -> unmapVar S (var l) <> var_Undef ->
  internalLit S (externalLit S l) = l.
Proof.
  intros Hok Hv Hm. unfold internalLit, externalLit.
  rewrite toLit_toInt. now apply mapLit_unmap.
Qed.

Lemma internalLit_externalLit_witness :
  varmap_okb swapSolver = true
  /\ internalLit swapSolver (externalLit swapSolver (mkLit 1 true))
     = mkLit 1 true.
Proof.
  split; [reflexivity|].
  apply (internalLit_externalLit swapSolver (mkLit 1 true)).
  - apply varmap_okb_sound. reflexivity.
  - vm_compute. congruence.
  - vm_compute. congruence.
Defined.

(** ** Reading the conflict back *)

Section FrameFacts.

Lemma set_outfile_same (S : SimpSolver) : set_outfile S (outfile S) = S.
Proof. now destruct S. Qed.

Lemma set_outfile_twice (S : SimpSolver) o o' :
  set_outfile (set_outfile S o) o' = set_outfile S o'.
Proof. reflexivity. Qed.

(** [write_out] changes the output file and nothing else. *)
Lemma write_out_frame (S : SimpSolver) fmt args :
  exists o, write_out S fmt args = set_outfile S o.
Proof.
  unfold write_out. destruct (outfile S) eqn:Ho.
  - eexists. reflexivity.
  - exists None. rewrite <- Ho. symmetry. apply set_outfile_same.
Qed.

Lemma fold_write_frame {A} (f : SimpSolver -> A -> SimpSolver) (xs : list A) :
  (forall S x, exists o, f S x = set_outfile S o) ->
  forall S, exists o, fold_left f xs S = set_outfile S o.
Proof.
  intros Hf. induction xs as [|x xs IH]; intros S; cbn [fold_left].
  - exists (outfile S). symmetry. apply set_outfile_same.
  - destruct (Hf S x) as [o ->]. destruct (IH (set_outfile S o)) as [o' ->].
    exists o'. apply set_outfile_twice.
Qed.

Lemma push_assumptions_frame (arr : list Z) (S : SimpSolver) (acc : list Lit) :
  exists o, fst (fold_left push_assumption arr (S, acc)) = set_outfile S o.
Proof.
  revert S acc. induction arr as [|e arr IH]; intros S acc; cbn [fold_left].
  - exists (outfile S). symmetry. apply set_outfile_same.
  - unfold push_assumption at 2. cbn [fst snd].
    match goal with
    | |- context [write_out S ?f ?x] =>
        destruct (write_out_frame S f x) as [o ->]
    end.
    destruct (IH (set_outfile S o) (acc ++ [internalLit S e])) as [o' ->].
    exists o'. apply set_outfile_twice.
Qed.

Lemma store_core_same_map (S S' : SimpSolver) (i : nat) (core : list Lit)
  (arr : list Z) :
  var_reverse_map S' = var_reverse_map S ->
  store_core S' i core arr = store_core S i core arr.
Proof.
  intros Hr. revert i arr. induction core as [|l core IH]; intros i arr;
    cbn [store_core]; [reflexivity|].
  rewrite (externalLit_same_map S S' l Hr). apply IH.
Qed.

Lemma externalLit_lit_neg (S : SimpSolver) (l : Lit) :
  externalLit S (lit_neg l) = Z.lxor (externalLit S l) 1.
Proof.
  unfold externalLit, unmap. rewrite var_lit_neg, sign_lit_neg.
  rewrite <- lit_neg_mkLit. reflexivity.
Qed.

Lemma LSet_fold_length (ls acc : list Lit) :
  (length (fold_left LSet_insert ls acc) <= length acc + length ls)%nat.
Proof.
  revert acc. induction ls as [|l ls IH]; intros acc; cbn [fold_left length].
  - lia.
  - specialize (IH (LSet_insert acc l)). unfold LSet_insert in *.
    destruct (bool_decide (l ∈ acc)); [|rewrite length_app in IH; cbn in IH];
      lia.
Qed.

End FrameFacts.

(** [minimizeUnsatCore] in closed form: what it returns, what it stores
    and the solver it leaves. *)
Lemma minimizeUnsatCore_fields (solve_under : list Lit -> lbool)
  (S : SimpSolver) (arr : list Z) :
  let r := fst (minimizeCore solve_under (map (internalLit S) arr)) in
  let core := snd (minimizeCore solve_under (map (internalLit S) arr)) in
  exists S',
    minimizeUnsatCore solve_under S arr =
      (Z.of_nat (length core), store_core S 0 core arr, S')
    /\ var_map S' = var_map S
    /\ var_reverse_map S' = var_reverse_map S
    /\ n_vars S' = n_vars S
    /\ model S' = model S
    /\ has_conflict_clause_from_last_solution S'
       = negb (bool_decide (r = l_True))
    /\ conflict S' =
         (if bool_decide (r = l_True) then conflict S
          else fold_left LSet_insert (map lit_neg core) []).
Proof.
  intros r core. unfold minimizeUnsatCore.
  match goal with
  | |- context [write_out ?T "minimize_core " []] =>
      destruct (write_out_frame T "minimize_core " []) as [o3 ->];
      set (S3 := set_outfile T o3)
  end.
  pose proof (push_assumptions_spec arr S3 []) as Hpush.
  destruct (push_assumptions_frame arr S3 []) as [o4 Hfr].
  destruct (fold_left push_assumption arr (S3, [])) as [S4 assumptions].
  cbv zeta in Hpush. cbn [fst snd app] in Hpush, Hfr.
  destruct Hpush as (_ & _ & ->). subst S4.
  destruct (write_out_frame (set_outfile S3 o4) LF []) as [o5 ->].
  assert (Hint : map (internalLit S3) arr = map (internalLit S) arr)
    by (apply map_ext; intros z; now apply internalLit_same_map).
  rewrite Hint. fold r core.
  destruct (minimizeCore solve_under (map (internalLit S) arr)) as [r0 core0].
  cbn [fst snd] in r, core. subst r core.
  eexists. split.
  - f_equal. f_equal. apply store_core_same_map. reflexivity.
  - destruct r0; cbn; repeat split.
Qed.

(** X6.  Without a conflict from the last solve, [getConflictClause]
    returns -1 and leaves the caller's array alone.  With one, and with
    [0 <= max_store_size <= ] the size of the array, it returns the size
    of the conflict, stores the external literals of the first
    [max_store_size] conflict literals at the front of the array and
    leaves every entry from [max_store_size] on as it was. *)
Theorem getConflictClause_store (S : SimpSolver) (store_clause : list Z)
  (max_store_size : Z) :
  (has_conflict_clause_from_last_solution S = false ->
   getConflictClause S store_clause max_store_size = (-1, store_clause))
  /\ (has_conflict_clause_from_last_solution S = true ->
      0 <= max_store_size <= Z.of_nat (length store_clause) ->
      let k := Nat.min (Z.to_nat max_store_size) (length (conflict S)) in
      let store' := snd (getConflictClause S store_clause max_store_size) in
      fst (getConflictClause S store_clause max_store_size)
      = Z.of_nat (length (conflict S))
      /\ store' = map (externalLit S) (take k (conflict S))
                  ++ drop k store_clause
      /\ length store' = length store_clause
      /\ forall i : nat, (Z.to_nat max_store_size <= i)%nat ->
                         store' !! i = store_clause !! i).
Proof.
  unfold getConflictClause. split; intros Hflag; rewrite Hflag;
    [reflexivity|].
  intros Hmax. cbn [fst snd].
  set (k := Nat.min (Z.to_nat max_store_size) (length (conflict S))).
  set (store' := store_core S 0 (take (Z.to_nat max_store_size) (conflict S))
                   store_clause).
  assert (Hk : length (take (Z.to_nat max_store_size) (conflict S)) = k)
    by (subst k; apply length_take).
  assert (Hstore : store' = map (externalLit S) (take k (conflict S))
                            ++ drop k store_clause).
  { subst store'. rewrite store_core_spec by (rewrite Hk; subst k; lia).
    rewrite take_0, Hk. cbn [app Nat.add]. do 2 f_equal.
    subst k. destruct (Nat.min_spec (Z.to_nat max_store_size)
                         (length (conflict S))) as [[Hlt ->]|[Hge ->]].
    - reflexivity.
    - rewrite firstn_all. apply take_ge. lia. }
  assert (Hlen : length (map (externalLit S) (take k (conflict S))) = k).
  { rewrite length_map, length_take. subst k. lia. }
  repeat split.
  - exact Hstore.
  - rewrite Hstore, length_app, Hlen, length_drop. subst k. lia.
  - intros i Hi. rewrite Hstore.
    rewrite lookup_app_r by (rewrite Hlen; subst k; lia).
    rewrite Hlen, lookup_drop. f_equal. subst k. lia.
Qed.

Lemma getConflictClause_store_witness :
  getConflictClause swapSolver [7; 8; 9] 2 = (-1, [7; 8; 9])
  /\ snd (getConflictClause conflictSolver [7; 8; 9] 1) = [1; 8; 9].
Proof.
  split.
  - apply (proj1 (getConflictClause_store swapSolver [7; 8; 9] 2)).
    reflexivity.
  - destruct (proj2 (getConflictClause_store conflictSolver [7; 8; 9] 1)
                eq_refl) as (_ & H & _).
    + cbn. lia.
    + exact H.
Defined.

(** X7.  After a [minimizeUnsatCore] whose verdict is not SAT,
    [getConflictClause] returns a size that is at most the returned core
    count, and every literal it stores is the negation (the low bit
    flipped) of a literal of the returned core. *)
Theorem getConflictClause_after_minimize (solve_under : list Lit -> lbool)
  (S : SimpSolver) (unsat_assumptions store_clause : list Z)
  (max_store_size : Z) :
  fst (minimizeCore solve_under (map (internalLit S) unsat_assumptions))
  <> l_True ->
  0 <= max_store_size <= Z.of_nat (length store_clause) ->
  let '(count, arr', S') :=
    minimizeUnsatCore solve_under S unsat_assumptions in
  let '(size, store') := getConflictClause S' store_clause max_store_size in
  0 <= size <= count
  /\ forall (i : nat) (e : Z),
       (i < Z.to_nat max_store_size)%nat -> (i < Z.to_nat size)%nat ->
       store' !! i = Some e ->
       exists c, In c (take (Z.to_nat count) arr') /\ e = Z.lxor c 1.
Proof.
  intros Hr Hmax.
  destruct (minimizeUnsatCore_fields solve_under S unsat_assumptions)
    as (S' & -> & _ & Hrev & _ & _ & Hflag & Hconf).
  pose proof (minimizeCore_spec solve_under
                (map (internalLit S) unsat_assumptions)) as [Hlen _].
  rewrite length_map in Hlen.
  set (core := snd (minimizeCore solve_under
                      (map (internalLit S) unsat_assumptions))) in *.
  assert (Hb : bool_decide
                 (fst (minimizeCore solve_under
                         (map (internalLit S) unsat_assumptions)) = l_True)
               = false) by now apply bool_decide_eq_false.
  rewrite Hb in Hflag, Hconf. cbn [negb] in Hflag.
  unfold getConflictClause. rewrite Hflag.
  pose proof (LSet_fold_length (map lit_neg core) []) as Hsize.
  rewrite <- Hconf, length_map in Hsize. cbn [length Nat.add] in Hsize.
  split; [lia|].
  intros i e Hi Hi' Hlook.
  rewrite Nat2Z.id in *.
  rewrite store_core_spec in Hlook by (rewrite length_take; lia).
  rewrite take_0 in Hlook. cbn [app Nat.add] in Hlook.
  rewrite lookup_app_l in Hlook by (rewrite length_map, length_take; lia).
  rewrite list_lookup_fmap in Hlook.
  destruct (take (Z.to_nat max_store_size) (conflict S') !! i) as [l|] eqn:Hl;
    [|discriminate].
  cbn in Hlook. injection Hlook as <-.
  apply lookup_take_Some in Hl as [Hl _].
  apply list_elem_of_lookup_2, list_elem_of_In in Hl.
  rewrite Hconf in Hl. apply LSet_fold_In in Hl as [[]|Hl].
  apply in_map_iff in Hl as (x & <- & Hx).
  exists (externalLit S' x). split.
  - rewrite store_core_spec by (cbn; lia).
    rewrite take_0. cbn [app Nat.add].
    rewrite (take_app_length' (map (externalLit S) core))
      by (now rewrite length_map).
    apply in_map_iff. exists x. split; [|exact Hx].
    symmetry. now apply externalLit_same_map.
  - apply externalLit_lit_neg.
Qed.

Lemma getConflictClause_after_minimize_witness :
  let '(count, arr', S') :=
    minimizeUnsatCore scenario_oracle fourVarSolver [0; 2; 4] in
  let '(size, store') := getConflictClause S' [9; 9; 9] 3 in
  size = 2 /\ store' = [1; 5; 9]
  /\ forall (i : nat) (e : Z),
       (i < 3)%nat -> (i < Z.to_nat size)%nat -> store' !! i = Some e ->
       exists c, In c (take (Z.to_nat count) arr') /\ e = Z.lxor c 1.
Proof.
  pose proof (getConflictClause_after_minimize scenario_oracle fourVarSolver
                [0; 2; 4] [9; 9; 9] 3) as H.
  destruct (minimizeUnsatCore scenario_oracle fourVarSolver [0; 2; 4])
    as [[count arr'] S'] eqn:E.
  destruct (getConflictClause S' [9; 9; 9] 3) as [size store'] eqn:E'.
  destruct H as [_ H]; [vm_compute; discriminate | cbn; lia |].
  vm_compute in E. injection E as <- <- <-.
  vm_compute in E'. injection E' as <- <-.
  repeat split. exact H.
Defined.

(** X8.  [minimizeConflictClause] never adds a literal to the conflict:
    for a solver whose var-map is a bijection and whose conflict literals
    are over variables the var-map hands out, every literal of the
    conflict after the call was in the conflict before; the var-map is
    unchanged, and without a conflict from the last solve the solver is
    unchanged. *)
Theorem minimizeConflictClause_shrinks (solve_under : list Lit -> lbool)
  (S : SimpSolver) :
  varmap_ok S ->
  (forall l, In l (conflict S) ->
             0 <= var l /\ unmapVar S (var l) <> var_Undef) ->
  let S' := minimizeConflictClause solve_under S in
  (forall l, In l (conflict S') -> In l (conflict S))
  /\ var_map S' = var_map S /\ var_reverse_map S' = var_reverse_map S
  /\ (has_conflict_clause_from_last_solution S = false -> S' = S).
Proof.
  intros Hok Hmapped. unfold minimizeConflictClause.
  destruct (has_conflict_clause_from_last_solution S);
    [|cbv zeta; repeat split; auto].
  cbv zeta.
  set (assumptions := map (fun l => externalLit S (lit_neg l)) (conflict S)).
  destruct (minimizeUnsatCore_fields solve_under S assumptions)
    as (S' & -> & Hm & Hr & _ & _ & _ & Hconf).
  cbn [snd]. repeat split; try assumption; try discriminate.
  intros l Hl. rewrite Hconf in Hl.
  destruct (bool_decide _); [exact Hl|].
  apply LSet_fold_In in Hl as [[]|Hl].
  apply in_map_iff in Hl as (x & <- & Hx).
  apply (proj2 (minimizeCore_spec solve_under _)) in Hx.
  subst assumptions. rewrite map_map in Hx.
  apply in_map_iff in Hx as (c & <- & Hc).
  destruct (Hmapped c Hc) as [Hv Hu].
  unfold internalLit, externalLit. rewrite toLit_toInt.
  rewrite mapLit_unmap; [| exact Hok | now rewrite var_lit_neg
                         | now rewrite var_lit_neg].
  now rewrite lit_neg_involutive.
Qed.

Lemma minimizeConflictClause_shrinks_witness :
  let S' := minimizeConflictClause scenario_oracle conflictSolver in
  conflict S' = [mkLit 0 true; mkLit 2 true]
  /\ (forall l, In l (conflict S') -> In l (conflict conflictSolver)).
Proof.
  split; [reflexivity|].
  apply (minimizeConflictClause_shrinks scenario_oracle conflictSolver).
  - apply varmap_okb_sound. reflexivity.
  - intros l [<-|[<-|[<-|[]]]]; vm_compute; split; congruence.
Defined.

(** ** Solving under assumptions *)

Section SolveFacts.

Lemma write_out_chunk (S : SimpSolver) fmt args out :
  outfile S = Some out ->
  write_out S fmt args = set_outfile S (Some (out ++ [vfprintf fmt args])).
Proof. unfold write_out. now intros ->. Qed.

Lemma fold_write_chunks {A} (f : SimpSolver -> A -> SimpSolver)
  (xs : list A) :
  (forall S x out, outfile S = Some out ->
                   exists c, f S x = set_outfile S (Some (out ++ [c]))) ->
  forall S out, outfile S = Some out ->
    exists cs, fold_left f xs S = set_outfile S (Some (out ++ cs))
               /\ length cs = length xs.
Proof.
  intros Hf. induction xs as [|x xs IH]; intros S out Hout; cbn [fold_left].
  - exists []. rewrite app_nil_r, <- Hout. split; [|reflexivity].
    symmetry. apply set_outfile_same.
  - destruct (Hf S x out Hout) as [c ->].
    destruct (IH (set_outfile S (Some (out ++ [c]))) (out ++ [c]) eq_refl)
      as (cs & -> & Hlen).
    exists (c :: cs). rewrite <- app_assoc. cbn [app length].
    split; [reflexivity | lia].
Qed.

Lemma check_assumptions_ok (S : SimpSolver) (assumptions : list Z)
  (acc : list Lit) :
  (forall a, In a assumptions -> var (internalLit S a) < n_vars S) ->
  check_assumptions S assumptions acc =
    Return (acc ++ map (internalLit S) assumptions).
Proof.
  revert acc. induction assumptions as [|a rest IH]; intros acc Hall;
    cbn [check_assumptions map].
  - now rewrite app_nil_r.
  - assert (Ha : (n_vars S <=? var (internalLit S a)) = false)
      by (apply Z.leb_gt; apply Hall; now left).
    rewrite Ha, IH by (intros x Hx; apply Hall; now right).
    now rewrite <- app_assoc.
Qed.

Lemma check_assumptions_bad (S : SimpSolver) (assumptions : list Z)
  (acc : list Lit) :
  (exists a, In a assumptions /\ n_vars S <= var (internalLit S a)) ->
  exists e, check_assumptions S assumptions acc = Raise e.
Proof.
  revert acc. induction assumptions as [|a rest IH]; intros acc [x [Hin Hx]].
  - destruct Hin.
  - cbn [check_assumptions].
    destruct (n_vars S <=? var (internalLit S a)) eqn:Ha; [eauto|].
    apply IH. destruct Hin as [->|Hin]; [|eauto].
    apply Z.leb_gt in Ha. lia.
Qed.

Lemma check_assumptions_same (S S' : SimpSolver) (assumptions : list Z)
  (acc : list Lit) :
  var_map S' = var_map S -> n_vars S' = n_vars S ->
  raised (check_assumptions S' assumptions acc)
  = raised (check_assumptions S assumptions acc)
  /\ (forall ls, check_assumptions S assumptions acc = Return ls ->
                 check_assumptions S' assumptions acc = Return ls).
Proof.
  intros Hm Hn. revert acc.
  induction assumptions as [|a rest IH]; intros acc; cbn [check_assumptions].
  - split; [reflexivity | auto].
  - rewrite Hn, (internalLit_same_map S S' a Hm).
    destruct (n_vars S <=? var (internalLit S a)).
    + split; [reflexivity | discriminate].
    + apply IH.
Qed.

(** The solver that [_solve] hands to the engine: the flags are reset and
    the trace line is written. *)
Lemma solve_prefix (S : SimpSolver) (assumptions : list Z) :
  exists o,
    write_out
      (fold_left trace_assumption assumptions
         (write_out (set_has_conflict_clause
                       (set_last_solution_optimal S true) false)
                    "solve" [])) LF []
    = set_outfile (set_has_conflict_clause
                     (set_last_solution_optimal S true) false) o
    /\ (forall out, outfile S = Some out ->
          exists line, o = Some (out ++ line)
                       /\ length line = Datatypes.S
                                          (Datatypes.S (length assumptions))).
Proof.
  set (S2 := set_has_conflict_clause (set_last_solution_optimal S true) false).
  destruct (outfile S) as [out|] eqn:Hout.
  - assert (Hout2 : outfile S2 = Some out) by exact Hout.
    rewrite (write_out_chunk S2 _ _ out Hout2).
    destruct (fold_write_chunks trace_assumption assumptions) with
      (S := set_outfile S2 (Some (out ++ [vfprintf "solve" []])))
      (out := out ++ [vfprintf "solve" []]) as (cs & -> & Hlen);
      [| reflexivity |].
    { intros T x o Ho. eexists. apply write_out_chunk. exact Ho. }
    erewrite write_out_chunk by reflexivity.
    eexists. split; [reflexivity|].
    intros out' [= <-]. eexists. rewrite <- !app_assoc. split; [reflexivity|].
    rewrite !length_app. cbn [length]. lia.
  - destruct (write_out_frame S2 "solve" []) as [o1 ->].
    destruct (fold_write_frame trace_assumption assumptions) with
      (S := set_outfile S2 o1) as [o2 ->].
    { intros T x. apply write_out_frame. }
    destruct (write_out_frame (set_outfile (set_outfile S2 o1) o2) LF [])
      as [o3 ->].
    exists o3. split; [reflexivity | discriminate].
Qed.

End SolveFacts.

(** X9.  When every assumption is over an internal variable below
    [nVars] (in particular for [solve], which has no assumption),
    [_solve] does not throw: it runs the engine once on the renamed
    assumptions and returns the integer of the verdict;
    [solveAssumptions] returns true exactly for the verdict SAT; the flag
    read by [lastSolutionWasOptimal] is the engine's, and
    [getConflictClause] afterwards returns -1 exactly when the verdict is
    not UNSAT. *)
Theorem solve_verdict
  (optimize_and_solve :
     SimpSolver -> list Lit -> lbool * bool * list lbool * list Lit)
  (S : SimpSolver) (assumptions : list Z) :
  (forall a, In a assumptions -> var (internalLit S a) < n_vars S) ->
  exists Spre,
    var_map Spre = var_map S /\ n_vars Spre = n_vars S
    /\ clauses Spre = clauses S
    /\ let '(r, found_optimal, m, c) :=
         optimize_and_solve Spre (map (internalLit S) assumptions) in
       let S' := snd (_solve optimize_and_solve S assumptions) in
       _solve optimize_and_solve S assumptions = (Return (lbool_toInt r), S')
       /\ solveAssumptions optimize_and_solve S assumptions
          = (Return (bool_decide (r = l_True)), S')
       /\ model S' = m /\ conflict S' = c
       /\ lastSolutionWasOptimal S' = found_optimal
       /\ (forall store max,
              fst (getConflictClause S' store max) = -1 <-> r <> l_False).
Proof.
  intros Hall. unfold solveAssumptions, _solve.
  destruct (solve_prefix S assumptions) as (o & -> & _).
  set (Spre := set_outfile _ o).
  assert (Hm : var_map Spre = var_map S) by reflexivity.
  assert (Hn : n_vars Spre = n_vars S) by reflexivity.
  exists Spre. repeat split.
  destruct (check_assumptions_same S Spre assumptions [] Hm Hn) as [_ Hsame].
  rewrite (Hsame _ (check_assumptions_ok S assumptions [] Hall)).
  cbn [app].
  destruct (optimize_and_solve Spre (map (internalLit S) assumptions))
    as [[[r fo] m] c].
  cbn [snd fst]. repeat split.
  - destruct r; reflexivity.
  - destruct r; reflexivity.
  - destruct r; reflexivity.
  - destruct r; reflexivity.
  - unfold getConflictClause.
    destruct r;
      [rewrite bool_decide_eq_false_2 by discriminate
      |rewrite bool_decide_eq_true_2 by reflexivity
      |rewrite bool_decide_eq_false_2 by discriminate];
      cbn; intros H; try discriminate; exfalso; lia.
  - unfold getConflictClause.
    destruct r;
      [rewrite bool_decide_eq_false_2 by discriminate
      |rewrite bool_decide_eq_true_2 by reflexivity
      |rewrite bool_decide_eq_false_2 by discriminate];
      cbn; intros H; try reflexivity; exfalso; apply H; reflexivity.
Qed.

Lemma solve_verdict_witness :
  _solve refuting_engine fourVarSolver [0; 5]
  = (Return 1, snd (_solve refuting_engine fourVarSolver [0; 5]))
  /\ fst (solveAssumptions refuting_engine fourVarSolver [0; 5])
     = Return false
  /\ fst (getConflictClause
            (snd (_solve refuting_engine fourVarSolver [0; 5])) [9; 9] 2)
     = 2
  /\ fst (solve refuting_engine fourVarSolver) = Return false.
Proof.
  destruct (solve_verdict refuting_engine fourVarSolver [0; 5])
    as (Spre & _ & _ & _ & H).
  { intros a [<-|[<-|[]]]; vm_compute; reflexivity. }
  unfold refuting_engine at 1 in H. cbv beta iota in H.
  destruct H as (H1 & H2 & _).
  split; [exact H1|]. split; [rewrite H2; reflexivity|].
  split; reflexivity.
Defined.

(** X10.  When some assumption is over an internal variable that is not
    below [nVars], [_solve] (and so [solveAssumptions]) throws without
    having run the engine: model, conflict and clauses are as before and
    there is no conflict to read back; but the trace line of the solve
    call has already been written to the output file. *)
Theorem solve_unallocated_assumption
  (optimize_and_solve :
     SimpSolver -> list Lit -> lbool * bool * list lbool * list Lit)
  (S : SimpSolver) (assumptions : list Z) :
  (exists a, In a assumptions /\ n_vars S <= var (internalLit S a)) ->
  exists e S',
    _solve optimize_and_solve S assumptions = (Raise e, S')
    /\ solveAssumptions optimize_and_solve S assumptions = (Raise e, S')
    /\ model S' = model S /\ conflict S' = conflict S
    /\ clauses S' = clauses S
    /\ has_conflict_clause_from_last_solution S' = false
    /\ (forall out, outfile S = Some out ->
          exists line, outfile S' = Some (out ++ line)
                       /\ length line = Datatypes.S
                                          (Datatypes.S (length assumptions))).
Proof.
  intros Hbad. unfold solveAssumptions, _solve.
  destruct (solve_prefix S assumptions) as (o & -> & Hline).
  set (Spre := set_outfile _ o).
  assert (Hm : var_map Spre = var_map S) by reflexivity.
  assert (Hn : n_vars Spre = n_vars S) by reflexivity.
  destruct (check_assumptions_bad S assumptions [] Hbad) as [e0 He0].
  destruct (check_assumptions_same S Spre assumptions [] Hm Hn) as [Hr _].
  rewrite He0 in Hr. cbn [raised] in Hr.
  destruct (check_assumptions Spre assumptions []) as [ls|e];
    [discriminate|].
  exists e, Spre. repeat split. exact Hline.
Qed.

Lemma solve_unallocated_assumption_witness :
  exists e S',
    _solve refuting_engine danglingSolver [0; 2] = (Raise e, S')
    /\ conflict S' = conflict danglingSolver
    /\ exists line, outfile S' = Some ([] ++ line) /\ length line = 4%nat.
Proof.
  destruct (solve_unallocated_assumption refuting_engine danglingSolver [0; 2])
    as (e & S' & H1 & _ & _ & H2 & _ & _ & H3).
  { exists 2. split; [cbn; tauto | vm_compute; congruence]. }
  exists e, S'. split; [exact H1|]. split; [exact H2|].
  apply H3. reflexivity.
Defined.

Section ClauseFacts.

Lemma opt_prepend_assoc (s t : string) (o : option string) :
  opt_prepend s (opt_prepend t o) = opt_prepend (s ++ t)%string o.
Proof.
  destruct o as [u|]; cbn [opt_prepend]; [|reflexivity].
  f_equal. induction s as [|ch s IH]; [reflexivity|].
  change (String ch (s ++ (t ++ u)) = String ch ((s ++ t) ++ u))%string.
  f_equal. exact IH.
Qed.

Lemma file_bytes_app (xs ys : list (option string)) :
  file_bytes (xs ++ ys)
  = match file_bytes xs with
    | Some s => opt_prepend s (file_bytes ys)
    | None => None
    end.
Proof.
  induction xs as [|[x|] xs IH]; cbn [app file_bytes].
  - destruct (file_bytes ys); reflexivity.
  - rewrite IH. destruct (file_bytes xs) as [s|]; cbn [opt_prepend];
      [|reflexivity].
    apply opt_prepend_assoc.
  - reflexivity.
Qed.

(** Two chunk lists with the same text stay so behind a common prefix. *)
Lemma file_bytes_suffix (out xs ys : list (option string)) :
  file_bytes xs = file_bytes ys ->
  file_bytes (out ++ xs) = file_bytes (out ++ ys).
Proof. intros H. now rewrite !file_bytes_app, H. Qed.

Lemma append_assoc (s t u : string) :
  ((s ++ t) ++ u = s ++ (t ++ u))%string.
Proof.
  induction s as [|ch s IH]; [reflexivity|].
  change (String ch ((s ++ t) ++ u) = String ch (s ++ (t ++ u)))%string.
  f_equal. exact IH.
Qed.

Lemma append_nil_r (s : string) : (s ++ EmptyString)%string = s.
Proof.
  induction s as [|ch s IH]; [reflexivity|].
  change (String ch (s ++ EmptyString) = String ch s)%string.
  f_equal. exact IH.
Qed.

Lemma append_cons (ch : ascii) (s t : string) :
  (String ch s ++ t = String ch (s ++ t))%string.
Proof. reflexivity. Qed.

Lemma append_nil_l (s : string) : (EmptyString ++ s)%string = s.
Proof. reflexivity. Qed.

End ClauseFacts.

(** Evaluates the formats of the goal and compares the texts written. *)
Ltac text_eq :=
  repeat match goal with
         | |- context [(?a ++ LF)%string] =>
             let f := eval vm_compute in (a ++ LF)%string in
             change (a ++ LF)%string with f
         end;
  cbn [app file_bytes vfprintf opt_prepend];
  rewrite ?append_assoc, ?append_cons, ?append_nil_l, ?append_nil_r;
  reflexivity.

(** X11.  [addUnitClause], [addBinaryClause] and [addTertiaryClause]
    behave as [addClause] does on an array of one, two and three
    literals: they leave the same solver (in particular they post the
    same clause) and the same text in the output file, which they write
    in one piece where [addClause] writes it literal by literal. *)
Theorem addClause_fixed_arity (S : SimpSolver) (a b c : Z) :
  let rest S' := set_outfile S' None in
  let text S' := file_bytes <$> outfile S' in
  (rest (API.addUnitClause S a) = rest (API.addClause S [a])
   /\ text (API.addUnitClause S a) = text (API.addClause S [a]))
  /\ (rest (API.addBinaryClause S a b) = rest (API.addClause S [a; b])
      /\ text (API.addBinaryClause S a b) = text (API.addClause S [a; b]))
  /\ (rest (API.addTertiaryClause S a b c) = rest (API.addClause S [a; b; c])
      /\ text (API.addTertiaryClause S a b c)
         = text (API.addClause S [a; b; c])).
Proof.
  destruct S as [n vm vr names mdl cfl cls [out|] lso hcc];
    cbv zeta;
    unfold API.addUnitClause, API.addBinaryClause, API.addTertiaryClause,
      API.addClause, API.trace_lit, addClause, write_out, set_outfile,
      set_clauses, internalLit, mapLit, mapVar, dimacs_lit, unmap, unmapVar;
    cbn [map fold_left outfile var_map var_reverse_map clauses fmap
           option_fmap option_map].
  2: { repeat split. }
  repeat split; f_equal; rewrite <- ?app_assoc; apply file_bytes_suffix;
    text_eq.
Qed.

(** [addBinaryClause] in closed form. *)
Lemma addBinaryClause_fields (S : SimpSolver) (a b : Z) :
  exists o,
    API.addBinaryClause S a b
    = set_outfile
        (set_clauses S (clauses S ++ [[internalLit S a; internalLit S b]])) o.
Proof.
  unfold API.addBinaryClause.
  match goal with
  | |- context [write_out S ?f ?x] => destruct (write_out_frame S f x) as [o ->]
  end.
  exists o. reflexivity.
Qed.

(** X12.  [addBinaryClauses] on two arrays of [n_pairs] literals posts
    the [n_pairs] binary clauses of the literals at equal positions, in
    the order of the arrays and after the clauses that were there; it
    changes nothing but the posted clauses and the output file. *)
Theorem addBinaryClauses_posts (S : SimpSolver) (first_args second_args : list Z) :
  length first_args = length second_args ->
  exists o,
    API.addBinaryClauses S first_args second_args
    = set_outfile
        (set_clauses S
           (clauses S
            ++ map (fun p => [internalLit S (fst p); internalLit S (snd p)])
                 (combine first_args second_args))) o
    /\ length (clauses (API.addBinaryClauses S first_args second_args))
       = (length (clauses S) + length first_args)%nat.
Proof.
  intros Hlen. unfold API.addBinaryClauses.
  assert (H : exists o,
            fold_left (fun S' p => API.addBinaryClause S' (fst p) (snd p))
              (combine first_args second_args) S
            = set_outfile
                (set_clauses S
                   (clauses S
                    ++ map (fun p => [internalLit S (fst p);
                                      internalLit S (snd p)])
                         (combine first_args second_args))) o).
  { generalize (combine first_args second_args) as ps. intros ps. revert S.
    induction ps as [|p ps IH]; intros S; cbn [fold_left map].
    - exists (outfile S). rewrite app_nil_r. now destruct S.
    - destruct (addBinaryClause_fields S (fst p) (snd p)) as [o ->].
      destruct (IH (set_outfile
                      (set_clauses S
                         (clauses S ++ [[internalLit S (fst p);
                                         internalLit S (snd p)]])) o))
        as [o' ->].
      exists o'. cbn [clauses set_outfile set_clauses]. rewrite <- app_assoc.
      reflexivity. }
  destruct H as [o ->]. exists o. split; [reflexivity|].
  cbn [clauses set_outfile set_clauses].
  rewrite length_app, length_map, length_combine. lia.
Qed.

Lemma addBinaryClauses_posts_witness :
  clauses (API.addBinaryClauses fourVarSolver [0; 2] [5; 6])
  = [[mkLit 0 false; mkLit 2 true]; [mkLit 1 false; mkLit 3 false]].
Proof.
  destruct (addBinaryClauses_posts fourVarSolver [0; 2] [5; 6] eq_refl)
    as (o & -> & _).
  reflexivity.
Defined.

Section UnaryFacts.

Lemma unary_lits_spec (S : SimpSolver) (args : list Z) (acc : list Lit) :
  unary_lits S args acc
  = if forallb (fun a => negb (sign (internalLit S a))) args
    then Return (acc ++ map (internalLit S) args)
    else Raise (api_errorf "Unary arguments must all be positive literals" []).
Proof.
  revert acc. induction args as [|a rest IH]; intros acc;
    cbn [unary_lits forallb map].
  - now rewrite app_nil_r.
  - destruct (sign (internalLit S a)); cbn [negb andb]; [reflexivity|].
    rewrite IH, <- app_assoc. reflexivity.
Qed.

Lemma unary_sequential_spec (prev : Lit) (rest : list Lit) :
  unary_sequential prev rest = true
  <-> forall (i : nat) l l',
        (prev :: rest) !! i = Some l ->
        (prev :: rest) !! Datatypes.S i = Some l' ->
        var l' = var l + 1.
Proof.
  revert prev. induction rest as [|x rest IH]; intros prev;
    cbn [unary_sequential].
  - split; [|reflexivity]. intros _ [|i] l l' _ H; discriminate H.
  - destruct (var x =? var prev + 1) eqn:Hx.
    + apply Z.eqb_eq in Hx. rewrite IH. split.
      * intros H [|i] l l' Hl Hl'.
        -- cbn in Hl, Hl'. congruence.
        -- exact (H i l l' Hl Hl').
      * intros H i l l' Hl Hl'. exact (H (Datatypes.S i) l l' Hl Hl').
    + apply Z.eqb_neq in Hx. split; [discriminate|].
      intros H. exfalso. apply Hx. exact (H 0%nat prev x eq_refl eq_refl).
Qed.

Lemma forallb_positive (S : SimpSolver) (args : list Z) :
  forallb (fun a => negb (sign (internalLit S a))) args = true
  <-> forall l, In l (map (internalLit S) args) -> sign l = false.
Proof.
  rewrite forallb_forall. split.
  - intros H l Hl. apply in_map_iff in Hl as (a & <- & Ha).
    specialize (H a Ha). now destruct (sign (internalLit S a)).
  - intros H a Ha. rewrite (H (internalLit S a)); [reflexivity|].
    now apply in_map.
Qed.

End UnaryFacts.

(** X13.  [bv_unary] accepts its arguments exactly when every one is a
    positive literal and the internal variable of each literal after the
    first is the successor of the one before.  It then adds one unary
    node, over these internal literals and for the renamed result
    bitvector, and touches nothing of the solver but the output file;
    otherwise it throws, and neither the solver (output file included)
    nor the theory has changed. *)
Theorem bv_unary_accepts (S : SimpSolver) (bv : BVTheorySolver)
  (nodes : list bv_node) (args : list Z) (resultID : Z) :
  let m_args := map (internalLit S) args in
  let accepted :=
    (forall l, In l m_args -> sign l = false)
    /\ (forall (i : nat) l l',
           m_args !! i = Some l -> m_args !! Datatypes.S i = Some l' ->
           var l' = var l + 1) in
  (accepted ->
   exists o, bv_unary S bv nodes args resultID
             = (Return tt, set_outfile S o,
                nodes ++ [UnaryBV (internalBV bv resultID) m_args]))
  /\ (~ accepted ->
      exists e, bv_unary S bv nodes args resultID = (Raise e, S, nodes)).
Proof.
  cbv zeta. unfold bv_unary. rewrite unary_lits_spec. cbn [app].
  destruct (forallb _ args) eqn:Hpos.
  - pose proof (proj1 (forallb_positive S args) Hpos) as Hpos'.
    clear Hpos. rename Hpos' into Hpos.
    set (m_args := map (internalLit S) args) in *.
    assert (Hseq : match m_args with
                   | [] => true
                   | l :: rest => unary_sequential l rest
                   end = true
                   <-> forall (i : nat) l l',
                         m_args !! i = Some l ->
                         m_args !! Datatypes.S i = Some l' ->
                         var l' = var l + 1).
    { destruct m_args as [|l rest]; [|apply unary_sequential_spec].
      split; [|reflexivity]. intros _ i l l' H. discriminate H. }
    destruct (match m_args with [] => true | l :: rest => _ end).
    + split; [|intros H; exfalso; apply H; split; [exact Hpos|now apply Hseq]].
      intros _.
      match goal with
      | |- context [write_out S ?f ?x] =>
          destruct (write_out_frame S f x) as [o1 ->]
      end.
      match goal with
      | |- context [fold_left ?f m_args ?S0] =>
          destruct (fold_write_frame f m_args
                      (fun S' l => write_out_frame S' _ _) S0) as [o2 ->]
      end.
      match goal with
      | |- context [write_out ?S0 ?f ?x] =>
          destruct (write_out_frame S0 f x) as [o3 ->]
      end.
      exists o3. reflexivity.
    + split; [|intros _; eexists; reflexivity].
      intros [_ H]. apply Hseq in H. discriminate H.
  - split; [|intros _; eexists; reflexivity].
    intros [H _]. pose proof (proj2 (forallb_positive S args) H). congruence.
Qed.

Lemma bv_unary_accepts_witness :
  (exists o, bv_unary fourVarSolver exampleBV [] [2; 4; 6] 1
             = (Return tt, set_outfile fourVarSolver o,
                [UnaryBV 1 [mkLit 1 false; mkLit 2 false; mkLit 3 false]]))
  /\ (exists e, bv_unary fourVarSolver exampleBV [] [2; 6] 1
                = (Raise e, fourVarSolver, [])).
Proof.
  split.
  - apply (bv_unary_accepts fourVarSolver exampleBV [] [2; 4; 6] 1).
    split.
    + intros l [<-|[<-|[<-|[]]]]; reflexivity.
    + intros [|[|[|i]]] l l' Hl Hl'; cbn in Hl, Hl';
        try discriminate Hl'; injection Hl as <-; injection Hl' as <-;
        reflexivity.
  - apply (bv_unary_accepts fourVarSolver exampleBV [] [2; 6] 1).
    intros [_ H]. specialize (H 0%nat _ _ eq_refl eq_refl).
    vm_compute in H. discriminate H.
Defined.

(** X14.  [bv_bit] checks [bit] against the number of bits of the
    bitvector that [internalBV] gives for the already renamed identifier.
    When that number is the one [bv_nBits] reports for [bvID], the
    function returns the external literal of the solver literal behind
    bit number [bit] for every [bit] from 0 below [bv_nBits], and throws
    [runtime_error] (BV bit out of range) for every other [bit]; it never
    reads outside the bits. *)
Theorem bv_bit_range (S : SimpSolver) (bv : BVTheorySolver) (bvID bit : Z) :
  bv_nBits S bv (internalBV bv bvID) = bv_nBits S bv bvID ->
  (0 <= bit < bv_nBits S bv bvID ->
   exists l,
     getBits bv (internalBV bv bvID) !! Z.to_nat bit = Some l
     /\ bv_bit S bv bvID bit = Return (Some (externalLit S (toSolver bv l))))
  /\ (~ (0 <= bit < bv_nBits S bv bvID) ->
      bv_bit S bv bvID bit
      = Raise (runtime_error (Some "BV bit out of range"%string))).
Proof.
  intros Hsame. unfold bv_bit. rewrite Hsame. split.
  - intros [H0 H1].
    destruct (bit <? 0) eqn:Hb; [apply Z.ltb_lt in Hb; lia|].
    destruct (bv_nBits S bv bvID <=? bit) eqn:Hn; [apply Z.leb_le in Hn; lia|].
    cbn [orb]. unfold bv_nBits in H1.
    destruct (lookup_lt_is_Some_2 (getBits bv (internalBV bv bvID))
                (Z.to_nat bit)) as [l Hl]; [lia|].
    exists l. split; [exact Hl|]. rewrite Hl. reflexivity.
  - intros Hout.
    destruct (bit <? 0) eqn:Hb; [reflexivity|]. apply Z.ltb_ge in Hb.
    destruct (bv_nBits S bv bvID <=? bit) eqn:Hn; [reflexivity|].
    apply Z.leb_gt in Hn. lia.
Qed.

Lemma bv_bit_range_witness :
  bv_bit fourVarSolver exampleBV 1 1 = Return (Some 6)
  /\ bv_bit fourVarSolver exampleBV 1 2
     = Raise (runtime_error (Some "BV bit out of range"%string)).
Proof.
  destruct (bv_bit_range fourVarSolver exampleBV 1 1 eq_refl) as [H _].
  destruct H as (l & Hl & ->); [vm_compute; split; congruence|].
  vm_compute in Hl. injection Hl as <-.
  split; [reflexivity|].
  apply (bv_bit_range fourVarSolver exampleBV 1 2 eq_refl).
  vm_compute. intros [_ H]. discriminate H.
Defined.

(** The literal that [newBVComparison_bv_eq] returns is allocated in the
    solver it leaves: renaming it inwards and outwards again gives it
    back. *)
Lemma newBVComparison_bv_eq_allocated (S : SimpSolver) (bv : BVTheorySolver)
  (bvID compareID : Z) :
  Z.of_nat (length (var_reverse_map S)) = n_vars S ->
  exists e S' bv' c,
    newBVComparison_bv_eq S bv bvID compareID = (e, S', bv')
    /\ internalLit S' e = c /\ externalLit S' c = e.
Proof.
  intros Hn.
  destruct (newBVComparison_bv_eq_fields S bv bvID compareID Hn)
    as (S1 & bv1 & S2 & bv2 & S' & Hgeq & Hgt & Heq & Hm & _).
  destruct (newBVComparison_bv_geq_fields S bv bvID compareID Hn)
    as (S1' & bv1' & Hgeq' & Hm1 & Hr1 & Hn1 & _).
  rewrite Hgeq in Hgeq'. injection Hgeq' as <- <-.
  assert (Hn' : Z.of_nat (length (var_reverse_map S1)) = n_vars S1)
    by (rewrite Hr1, Hn1, length_app; cbn [length]; lia).
  destruct (newBVComparison_bv_gt_fields S1 bv1 bvID compareID Hn')
    as (S2' & bv2' & Hgt' & _ & _ & Hn2 & _).
  assert (He1 : Z.of_nat (length (var_map S1))
                = Z.of_nat (length (var_map S)) + 1)
    by (rewrite Hm1, length_app; cbn [length]; lia).
  rewrite He1 in Hgt'. rewrite Hgt in Hgt'. injection Hgt' as <- <-.
  exists (toInt (mkLit (Z.of_nat (length (var_map S)) + 2) false)), S', bv2,
    (mkLit (n_vars S + 2) false).
  split; [exact Heq|]. split.
  - apply (internalLit_mid S' (var_map S ++ [n_vars S; n_vars S + 1]) []
             (n_vars S + 2)).
    + rewrite Hm, <- app_assoc. reflexivity.
    + rewrite length_app. cbn [length]. lia.
  - unfold newBVComparison_bv_eq in Heq. rewrite Hgeq in Heq.
    cbv beta iota zeta in Heq. rewrite Hgt in Heq.
    cbv beta iota zeta in Heq. unfold Solver_newVar in Heq.
    rewrite Hn2, Hn1 in Heq.
    replace (n_vars S + 1 + 1) with (n_vars S + 2) in Heq by lia.
    injection Heq as He HS. rewrite HS in He. exact He.
Qed.

(** X15.  On a solver whose int→ext array has one slot per internal
    variable, [newBVComparison_bv_neq] does what [newBVComparison_bv_eq]
    does to the solver and to the theory, and returns the negation of the
    literal that [newBVComparison_bv_eq] returns: the same external
    variable with the other sign. *)
Theorem newBVComparison_bv_neq_negates (S : SimpSolver) (bv : BVTheorySolver)
  (bvID compareID : Z) :
  Z.of_nat (length (var_reverse_map S)) = n_vars S ->
  let '(e, S', bv') := newBVComparison_bv_eq S bv bvID compareID in
  newBVComparison_bv_neq S bv bvID compareID = (Z.lxor e 1, S', bv').
Proof.
  intros Hn. unfold newBVComparison_bv_neq.
  destruct (newBVComparison_bv_eq_allocated S bv bvID compareID Hn)
    as (e & S' & bv' & c & -> & Hin & Hout).
  rewrite externalLit_lit_neg, Hin, Hout. reflexivity.
Qed.

Lemma newBVComparison_bv_neq_negates_witness :
  fst (fst (newBVComparison_bv_eq fourVarSolver exampleBV 0 1)) = 12
  /\ fst (fst (newBVComparison_bv_neq fourVarSolver exampleBV 0 1)) = 13.
Proof.
  pose proof (newBVComparison_bv_neq_negates fourVarSolver exampleBV 0 1
                eq_refl) as H.
  destruct (newBVComparison_bv_eq fourVarSolver exampleBV 0 1)
    as [[e S'] bv'] eqn:E.
  rewrite H. vm_compute in E. injection E as <- <- <-.
  split; reflexivity.
Defined.

Section PathFacts.

(** The copy loop inside the array: the path replaces the entries from
    position [i] on. *)
Lemma copy_path_spec (store_path : list Z) (i : nat) (store : list Z) :
  (i + length store_path <= length store)%nat ->
  copy_path i store_path store
  = take i store ++ store_path ++ drop (i + length store_path) store.
Proof.
  revert i store. induction store_path as [|n rest IH]; intros i store Hlen;
    cbn [copy_path length app].
  - rewrite Nat.add_0_r. symmetry. apply take_drop.
  - cbn [length] in Hlen.
    rewrite IH by (rewrite length_insert; lia).
    rewrite (take_S_r (<[i:=n]> store) i n)
      by (apply list_lookup_insert_eq; lia).
    rewrite take_insert_ge by lia.
    rewrite drop_insert_lt by lia.
    rewrite <- app_assoc. cbn [app].
    replace (Datatypes.S i + length rest)%nat
      with (i + Datatypes.S (length rest))%nat by lia.
    reflexivity.
Qed.

Lemma size_t_of_int_nonneg (i : Z) :
  0 <= i < 2 ^ 31 -> size_t_of_int i = i.
Proof. intros H. unfold size_t_of_int. apply Z.mod_small. lia. Qed.

Lemma size_t_of_int_neg (i : Z) :
  - 2 ^ 31 <= i < 0 -> size_t_of_int i = i + 2 ^ 64.
Proof.
  intros H. unfold size_t_of_int.
  symmetry. apply (Z.mod_unique i (2 ^ 64) (-1)); lia.
Qed.

End PathFacts.

(** X16.  For a [store_length] that is no [int] below zero and an array
    of at least [store_length] entries: [getModel_Path_Nodes] returns
    what [getModel_Path_Nodes_Length] returns (-1 without a witness path,
    the number of nodes otherwise); it leaves the array as it was unless
    the path fits in [store_length] entries, and then writes the complete
    path at the front of the array and nothing behind it. *)
Theorem getModel_Path_Nodes_store
  (getModel_Path : GraphTheorySolver -> Lit -> option (list Z))
  (S : SimpSolver) (G : GraphTheorySolver) (reach_or_distance_literal : Z)
  (store_length : Z) (store : list Z) :
  0 <= store_length < 2 ^ 31 ->
  store_length <= Z.of_nat (length store) ->
  let len := getModel_Path_Nodes_Length getModel_Path S G
               reach_or_distance_literal in
  let '(r, store') := getModel_Path_Nodes getModel_Path S G
                        reach_or_distance_literal store_length store in
  r = len
  /\ length store' = length store
  /\ (len < 0 \/ store_length < len -> store' = store)
  /\ (0 <= len <= store_length ->
      getModel_Path G (internalLit S reach_or_distance_literal)
      = Some (take (Z.to_nat len) store')
      /\ drop (Z.to_nat len) store' = drop (Z.to_nat len) store).
Proof.
  intros Hrange Hstore.
  unfold getModel_Path_Nodes_Length, getModel_Path_Nodes.
  destruct (getModel_Path G (internalLit S reach_or_distance_literal))
    as [store_path|]; cbv zeta.
  - rewrite size_t_of_int_nonneg by exact Hrange.
    destruct (store_length <? Z.of_nat (length store_path)) eqn:Hlt.
    + apply Z.ltb_lt in Hlt. repeat split; lia.
    + apply Z.ltb_ge in Hlt.
      rewrite copy_path_spec by lia. rewrite take_0. cbn [app Nat.add].
      rewrite Nat2Z.id.
      split; [reflexivity|]. split; [|split].
      * rewrite length_app, length_drop. lia.
      * lia.
      * intros _. rewrite take_app_length, drop_app_length. split; reflexivity.
  - repeat split; lia.
Qed.

Lemma getModel_Path_Nodes_store_witness :
  getModel_Path_Nodes example_getModel_Path fourVarSolver (emptyGraph 0) 2 4
    [7; 7; 7; 7; 7]
  = (3, [0; 2; 3; 7; 7])
  /\ getModel_Path_Nodes example_getModel_Path fourVarSolver (emptyGraph 0) 2 2
       [7; 7; 7; 7; 7]
     = (3, [7; 7; 7; 7; 7]).
Proof.
  pose proof (getModel_Path_Nodes_store example_getModel_Path fourVarSolver
                (emptyGraph 0) 2 4 [7; 7; 7; 7; 7]) as H.
  destruct (getModel_Path_Nodes example_getModel_Path fourVarSolver
              (emptyGraph 0) 2 4 [7; 7; 7; 7; 7]) as [r store'] eqn:E.
  destruct H as (Hr & _); [lia | cbn; lia |].
  vm_compute in E. injection E as <- <-.
  split; reflexivity.
Defined.

(** X17.  A negative [store_length] does not stop the copy: the
    comparison with the size of the path converts it to [size_t], where
    it is larger than the size of any path, so [getModel_Path_Nodes]
    writes the complete path to the front of the array. *)
Theorem getModel_Path_Nodes_negative_length
  (getModel_Path : GraphTheorySolver -> Lit -> option (list Z))
  (S : SimpSolver) (G : GraphTheorySolver) (reach_or_distance_literal : Z)
  (store_length : Z) (store store_path : list Z) :
  - 2 ^ 31 <= store_length < 0 ->
  getModel_Path G (internalLit S reach_or_distance_literal)
  = Some store_path ->
  Z.of_nat (length store_path) < 2 ^ 31 ->
  (length store_path <= length store)%nat ->
  getModel_Path_Nodes getModel_Path S G reach_or_distance_literal
    store_length store
  = (Z.of_nat (length store_path),
     store_path ++ drop (length store_path) store).
Proof.
  intros Hneg Hpath Hint Hfit. unfold getModel_Path_Nodes.
  rewrite Hpath, size_t_of_int_neg by exact Hneg.
  destruct (store_length + 2 ^ 64 <? Z.of_nat (length store_path)) eqn:Hlt;
    [apply Z.ltb_lt in Hlt; lia|].
  rewrite copy_path_spec by lia. reflexivity.
Qed.

Lemma getModel_Path_Nodes_negative_length_witness :
  getModel_Path_Nodes example_getModel_Path fourVarSolver (emptyGraph 0) 2
    (-1) [7; 7; 7; 7; 7]
  = (3, [0; 2; 3; 7; 7]).
Proof.
  apply (getModel_Path_Nodes_negative_length example_getModel_Path
           fourVarSolver (emptyGraph 0) 2 (-1) [7; 7; 7; 7; 7] [0; 2; 3]).
  - lia.
  - reflexivity.
  - cbn; lia.
  - cbn; lia.
Defined.

Section StringFacts.

Lemma check_labels_ok (n_strings i : Z) (str acc : list Z) :
  Forall (fun label => 0 < label) str ->
  check_labels n_strings i str acc = Return (acc ++ str).
Proof.
  intros H. revert i acc.
  induction H as [|label rest Hl _ IH]; intros i acc; cbn [check_labels].
  - now rewrite app_nil_r.
  - destruct (label <=? 0) eqn:Hb; [apply Z.leb_le in Hb; lia|].
    rewrite IH, <- app_assoc. reflexivity.
Qed.

Lemma check_labels_first_bad (n_strings i : Z) (pre : list Z) (label : Z)
  (post acc : list Z) :
  Forall (fun l => 0 < l) pre -> label <= 0 ->
  check_labels n_strings i (pre ++ label :: post) acc
  = Raise (api_errorf
             "String must consist of positive integers, found %d at position %d in string %d"
             [va_int label; va_int (i + Z.of_nat (length pre));
              va_int n_strings]).
Proof.
  intros H Hbad. revert i acc.
  induction H as [|l rest Hl _ IH]; intros i acc;
    cbn [check_labels app length].
  - apply Z.leb_le in Hbad. rewrite Hbad, Z.add_0_r. reflexivity.
  - destruct (l <=? 0) eqn:Hb; [apply Z.leb_le in Hb; lia|].
    rewrite IH.
    replace (i + 1 + Z.of_nat (length rest))
      with (i + Z.of_nat (Datatypes.S (length rest))) by lia.
    reflexivity.
Qed.

End StringFacts.

(** X18.  [newString] accepts a string exactly when all its labels are
    positive.  It then hands the theory the string as given and returns
    the identifier the theory answers, changing nothing of the solver but
    the output file.  Otherwise it throws with the first label that is
    not positive, the position of that label (counted from 0) and the
    number of strings of the theory; the solver (output file included)
    and the strings of the theory are as before, but a theory that was
    created for a null [fsmTheory] stays registered. *)
Theorem newString_labels (S : SimpSolver) (D : FSMData)
  (fsmTheory : option nat) (str : list Z) :
  let '(theory, D1) :=
    match fsmTheory with
    | None => initFSMTheory D
    | Some theory => (theory, D)
    end in
  (Forall (fun label => 0 < label) str ->
   exists o,
     newString S D fsmTheory str
     = (Return (fst (FSM_newString D1 theory str)), set_outfile S o,
        snd (FSM_newString D1 theory str)))
  /\ (forall pre label post,
         str = pre ++ label :: post ->
         Forall (fun l => 0 < l) pre -> label <= 0 ->
         newString S D fsmTheory str
         = (Raise (api_errorf
                     "String must consist of positive integers, found %d at position %d in string %d"
                     [va_int label; va_int (Z.of_nat (length pre));
                      va_int (nStrings D1 theory)]),
            S, D1)).
Proof.
  unfold newString.
  destruct (match fsmTheory with
            | None => initFSMTheory D
            | Some theory => (theory, D)
            end) as [theory D1].
  split.
  - intros Hpos. rewrite (check_labels_ok _ 0 str [] Hpos). cbn [app].
    unfold FSM_newString. cbn [fst snd].
    match goal with
    | |- context [write_out S ?f ?x] =>
        destruct (write_out_frame S f x) as [o1 ->]
    end.
    match goal with
    | |- context [fold_left ?f str ?S0] =>
        destruct (fold_write_frame f str
                    (fun S' l => write_out_frame S' _ _) S0) as [o2 ->]
    end.
    match goal with
    | |- context [write_out ?S0 ?f ?x] =>
        destruct (write_out_frame S0 f x) as [o3 ->]
    end.
    exists o3. reflexivity.
  - intros pre label post -> Hpre Hbad.
    rewrite (check_labels_first_bad _ 0 pre label post [] Hpre Hbad).
    reflexivity.
Qed.

Lemma newString_labels_witness :
  (exists o, newString fourVarSolver exampleFSMData (Some 0%nat) [3; 1]
             = (Return 1, set_outfile fourVarSolver o,
                mkFSMData [mkFSM [[1; 2]; [3; 1]]] (Some 0%nat)))
  /\ newString fourVarSolver exampleFSMData (Some 0%nat) [3; 0; -1]
     = (Raise (runtime_error
                 (Some "String must consist of positive integers, found 0 at position 1 in string 1"%string)),
        fourVarSolver, exampleFSMData).
Proof.
  pose proof (newString_labels fourVarSolver exampleFSMData (Some 0%nat)
                [3; 1]) as [H1 _].
  pose proof (newString_labels fourVarSolver exampleFSMData (Some 0%nat)
                [3; 0; -1]) as [_ H2].
  split.
  - apply H1. repeat constructor.
  - rewrite (H2 [3] 0 [-1] eq_refl); [reflexivity | | lia].
    repeat constructor.
Defined.

(** X19.  [initFSMTheory] creates the FSM theory at most once: after a
    call the theory it returned is registered, a second call returns the
    same theory and changes nothing, and a first call adds one theory
    without strings.  [newString] with a null [fsmTheory] is [newString]
    with the theory of [initFSMTheory]. *)
Theorem initFSMTheory_once (D : FSMData) :
  let '(theory, D1) := initFSMTheory D in
  d_fsm_theory D1 = Some theory
  /\ initFSMTheory D1 = (theory, D1)
  /\ match d_fsm_theory D with
     | Some registered => theory = registered /\ D1 = D
     | None => fsm_heap D1 = fsm_heap D ++ [mkFSM []]
               /\ fsm_heap D1 !! theory = Some (mkFSM [])
     end
  /\ forall S str,
       newString S D None str = newString S D1 (Some theory) str.
Proof.
  unfold newString, initFSMTheory.
  destruct D as [heap [registered|]]; cbn [d_fsm_theory fsm_heap].
  - repeat split.
  - repeat split.
    rewrite lookup_app_r by lia. now rewrite Nat.sub_diag.
Qed.
